(** * Federation executor: path following and plan execution

    A shallow embedding of [federation/executor.go]: the [pathFollower]
    walk ([extractTargets]), the recursive plan runner ([execute]), the
    top-level [Execute] and the gateway constructor [NewExecutor]. *)

From stdpp Require Import gmap strings list fin_maps.

Set Warnings "-register-all".
Open Scope string_scope.

(** ** Result trees

    A decoded result is a Go [interface{}]: [nil], a scalar, a
    [[]interface{}] or a [map[string]interface{}].  The walk only tells
    apart slices, maps and strings; numeric scalars are kept as integers. *)

Inductive value : Type :=
| VNull
| VBool (b : bool)
| VNum (n : Z)
| VStr (s : string)
| VList (slice : list value)
| VObj (obj : gmap string value).

(** ** Paths

    Modelled from the spec: the declarations of [PathStep], [StepKind] and
    [Plan] live in the planner, outside this file; a step is the closed
    variant "descend into field F" / "restrict to concrete type T", and a
    plan carries its service, its path and its dependent plans. *)

Inductive StepKind : Type := KindField | KindType.

Record PathStep : Type := mkStep { Kind : StepKind; Name : string }.

Inductive Plan : Type :=
  mkPlan { Service : string; Path : list PathStep; After : list Plan }.

(** ** Errors

    Every [fmt.Errorf] of the file is one constructor carrying the operands
    of its format string; a wrapped error is kept as a sub-term. *)

Inductive error : Type :=
| ErrIdx (i : nat) (err : error)              (* "idx %d: %v" *)
| ErrNotAnObject                              (* "not an object: %v" *)
| ErrMissingFederation (obj : gmap string value) (* "missing __federation: %v" *)
| ErrNoKey (name : string)                    (* "does not have key %s" *)
| ErrElem (next : value) (err : error)        (* "elem %s: %v" *)
| ErrNoTypename                               (* "does not have string key __typename" *)
| ErrTyp (typ : string) (err : error)         (* "typ %s: %v" *)
| ErrSubPlan (err : error)                    (* "executing sub plan: %v" *)
| ErrResultCount (results targets : nat)      (* "got %d results for %d targets" *)
| ErrResultNotObject                          (* "result is not an object: %v" *)
| ErrFetchingSchema (server : string) (err : error)    (* "fetching schema %s: %v" *)
| ErrUnmarshalingSchema (server : string) (err : error) (* "unmarshaling schema %s: %v" *)
| ErrConvertingSchema (err : error)           (* "converting schema error: %v" *)
| ErrUnmarshalingIntrospection (err : error)  (* "unmarshaling introspection schema: %v" *)
| ErrExternal (msg : string).                 (* an error made by a collaborator *)

(** ** The path follower

    [extractTargets] mutates its receiver and returns an [error]; the
    receiver is threaded explicitly, and what was appended before a failure
    stays appended, as in the source. *)

Record pathFollower : Type :=
  mkPF { targets : list (gmap string value); keys : list value }.

Definition emptyFollower : pathFollower := mkPF [] [].

Definition follow : Type := pathFollower -> pathFollower * option error.

(** [node.(map[string]interface{})] with the comma-ok form. *)
Definition asObject (node : value) : option (gmap string value) :=
  match node with VObj obj => Some obj | _ => None end.

(** [v.(string)] with the comma-ok form, on the result of a map index. *)
Definition asString (v : option value) : option string :=
  match v with Some (VStr s) => Some s | _ => None end.

(** The loop of lines 100-105, over the elements left from index [i]. *)
Definition rangeSlice (visit : value -> follow) : list value -> nat -> follow :=
  fix loop (slice : list value) (i : nat) : follow :=
    fun pf =>
      match slice with
      | [] => (pf, None)
      | elem :: rest =>
          match visit elem pf with
          | (pf', Some err) => (pf', Some (ErrIdx i err))
          | (pf', None) => loop rest (S i) pf'
          end
      end.

Fixpoint extractTargets_at (path : list PathStep) (node : value) {struct path} : follow :=
  let here :=
    fix here (node : value) {struct node} : follow :=
      match node with
      | VList slice => rangeSlice here slice 0
      | _ =>
          fun pf =>
            match path with
            | [] =>
                match asObject node with
                | None => (pf, Some ErrNotAnObject)
                | Some obj =>
                    match obj !! "__federation" with
                    | None => (pf, Some (ErrMissingFederation obj))
                    | Some key =>
                        (mkPF (targets pf ++ [obj]) (keys pf ++ [key]), None)
                    end
                end
            | step :: path' =>
                match asObject node with
                | None => (pf, None)
                | Some obj =>
                    match Kind step with
                    | KindField =>
                        match obj !! Name step with
                        | None => (pf, Some (ErrNoKey (Name step)))
                        | Some next =>
                            match extractTargets_at path' next pf with
                            | (pf', Some err) => (pf', Some (ErrElem next err))
                            | (pf', None) => (pf', None)
                            end
                        end
                    | KindType =>
                        match asString (obj !! "__typename") with
                        | None => (pf, Some ErrNoTypename)
                        | Some typ =>
                            if decide (typ = Name step) then
                              match extractTargets_at path' (VObj obj) pf with
                              | (pf', Some err) => (pf', Some (ErrTyp typ err))
                              | (pf', None) => (pf', None)
                              end
                            else (pf, None)
                        end
                    end
                end
            end
      end
  in here node.

(** [pf.extractTargets(node, path)], in the argument order of the source. *)
Definition extractTargets (node : value) (path : list PathStep) : follow :=
  extractTargets_at path node.

(** ** Outcomes of the executor

    A Go call here ends in one of three ways: it returns its value with a
    [nil] error, it returns a non-[nil] error, or it panics (an index out of
    range, a failed type assertion without the comma-ok form, an assignment
    to an entry of a [nil] map). *)

Inductive panic : Type := IndexOutOfRange | InterfaceConversion | NilMapWrite.

Inductive outcome (A : Type) : Type :=
| Return (a : A)
| Fail (err : error)
| Panic (pn : panic).

Arguments Return {A} a.
Arguments Fail {A} err.
Arguments Panic {A} pn.

(** A [(T, error)] pair of which the caller reads the value only when the
    error is [nil]. *)
Inductive result (A : Type) : Type :=
| Ok (a : A)
| Error (err : error).

Arguments Ok {A} a.
Arguments Error {A} err.

(** ** Go maps

    A value of a Go map type is [nil] or a table.  Reading and ranging over
    a [nil] map find nothing; writing to one panics. *)

Inductive gomap (V : Type) : Type :=
| nilMap
| mapOf (table : gmap string V).

Arguments nilMap {V}.
Arguments mapOf {V} table.

#[global] Instance gomap_lookup {V : Type} : Lookup string V (gomap V) :=
  fun key m =>
    match m with
    | nilMap => None
    | mapOf table => table !! key
    end.

(** The entries that [range] goes through, in the order of the table. *)
Definition entriesOf {V : Type} (m : gomap V) : list (string * V) :=
  match m with
  | nilMap => []
  | mapOf table => map_to_list table
  end.

(** ** Collaborators

    What [executor.go] calls but does not define: the query parser, the JSON
    decoder, the schema merger, the flattener, the introspection package, the
    planner and the coordinator's service name.  They are taken as they are
    declared, with no assumption on what they compute. *)

Record Env : Type := mkEnv {
  Query : Type;                      (* graphql.Query *)
  Schema : Type;                     (* graphql.Schema *)
  introspectionQueryResult : Type;
  SchemaWithFederationInfo : Type;   (* what convertSchema returns *)
  flattener_t : Type;
  gatewayCoordinatorServiceName : string;
  (* graphql.Parse(introspection.IntrospectionQuery, map[string]interface{}{}) *)
  parseIntrospectionQuery : result Query;
  jsonUnmarshal : list Byte.byte -> result introspectionQueryResult;
  convertSchema : gmap string introspectionQueryResult -> result SchemaWithFederationInfo;
  typesSchema : SchemaWithFederationInfo -> Schema;   (* types.Schema *)
  BareIntrospectionSchema : Schema -> Schema;
  RunIntrospectionQuery : Schema -> list Byte.byte * option error;
  newFlattener : Schema -> result flattener_t;
}.

Section Gateway.

Variable W : Env.

Record Server : Type := mkServer { schema : Schema W }.

(** The [ExecutorClient] interface.  A backend is known by what its
    [Execute] answers; [DirectExecutorClient] wraps an in-process server. *)
Inductive ExecutorClient : Type :=
| BackendClient (answer : Query W -> result (list Byte.byte))
| DirectExecutorClient (Client : Server).

Record Planner : Type :=
  mkPlanner { planner_schema : SchemaWithFederationInfo W; flattener : flattener_t W }.

Record Executor : Type :=
  mkExecutor { Executors : gomap ExecutorClient; planner : Planner }.

(** The [Execute] method of [Server] and the [planRoot] method of
    [Planner] are defined elsewhere. *)
Variable serverExecute : Server -> Query W -> result (list Byte.byte).
Variable planRoot : Planner -> Query W -> result Plan.

Definition clientExecute (c : ExecutorClient) (req : Query W) : result (list Byte.byte) :=
  match c with
  | BackendClient answer => answer req
  | DirectExecutorClient srv => serverExecute srv req
  end.

Definition fetchSchema (e : ExecutorClient) : result (list Byte.byte) :=
  match parseIntrospectionQuery W with
  | Error err => Error err
  | Ok query => clientExecute e query
  end.

(** *** execute *)

(** Lines 156-162: the node's own result. *)
Definition ownResult (p : Plan) : list value :=
  if decide (Service p = gatewayCoordinatorServiceName W) then [VObj ∅] else [].

(** Lines 170-174: [res[0].(map[string]interface{})] as the only target and
    [nil] keys.  The sub-plan is in scope but not read. *)
Definition newFollower (res : list value) (subPlan : Plan) : outcome pathFollower :=
  match res with
  | [] => Panic IndexOutOfRange
  | VObj obj :: _ => Return (mkPF [obj] [])
  | _ :: _ => Panic InterfaceConversion
  end.

(** Lines 189-197 on the targets as values: each target receives the fields
    of the result of the same index, the result's fields winning. *)
Fixpoint mergeTargets (tgts : list (gmap string value)) (results : list value)
  : outcome (list (gmap string value)) :=
  match tgts, results with
  | [], _ => Return []
  | _ :: _, [] => Panic IndexOutOfRange
  | target :: tgts', r :: results' =>
      match asObject r with
      | None => Fail ErrResultNotObject
      | Some fields =>
          match mergeTargets tgts' results' with
          | Return merged => Return ((fields ∪ target) :: merged)
          | stop => stop
          end
      end
  end.

(** The targets of [newFollower] are the map held in [res[0]] itself, not a
    copy: what the merge writes into them is written into [res]. *)
Definition writeBack (res : list value) (merged : list (gmap string value)) : list value :=
  match res, merged with
  | _ :: rest, target :: _ => VObj target :: rest
  | _, _ => res
  end.

(** Lines 176-200: the body handed to [g.Go], given what the recursive call
    gave. *)
Definition goroutine (sub : outcome (list value)) (pf : pathFollower) (res : list value)
  : outcome (list value) :=
  match sub with
  | Panic pn => Panic pn
  | Fail err => Fail (ErrSubPlan err)
  | Return results =>
      if decide (length results ≠ length (targets pf)) then
        Fail (ErrResultCount (length results) (length (targets pf)))
      else
        match mergeTargets (targets pf) results with
        | Return merged => Return (writeBack res merged)
        | Fail err => Fail err
        | Panic pn => Panic pn
        end
  end.

(** Lines 168-206, as the call goes through them in its own goroutine.

    [res[0]] is read in the loop, before [g.Go]: when it panics, the call
    itself panics and no goroutine is started.  A panic inside a started
    goroutine is not a panic of the call: it unwinds that goroutine, whose
    deferred [Done] releases [g.Wait] without an error recorded, so the call
    goes on as if that goroutine had merged nothing and returned [nil],
    while the process is being ended by the panic.  What [rangeAfter] gives
    is what the call returns if it returns before the process ends;
    [goroutinePanics] below tells whether a started goroutine panics.

    Otherwise [g.Wait] returns the first error recorded by the group.
    Sibling goroutines are taken in the order they are started: their
    merges are serialised by [resMu], and which of several errors comes
    first in time is fixed to that order. *)
Definition rangeAfter (exec : Plan -> list value -> outcome (list value))
  : list Plan -> list value -> option error -> outcome (list value) :=
  fix loop (subs : list Plan) (res : list value) (failed : option error) :=
    match subs with
    | [] =>
        match failed with
        | Some err => Fail err
        | None => Return res
        end
    | subPlan :: rest =>
        match newFollower res subPlan with
        | Panic pn => Panic pn
        | Fail err => Fail err
        | Return pf =>
            match goroutine (exec subPlan (keys pf)) pf res with
            | Panic _ => loop rest res failed
            | Fail err => loop rest res (Some (default err failed))
            | Return res' => loop rest res' failed
            end
        end
    end.

Fixpoint execute (e : Executor) (p : Plan) (keys : list value) {struct p}
  : outcome (list value) :=
  match p with
  | mkPlan _ _ after => rangeAfter (execute e) after (ownResult p) None
  end.

Definition isPanic {A : Type} (o : outcome A) : bool :=
  match o with
  | Panic _ => true
  | _ => false
  end.

(** Whether a goroutine started by this call of [execute], or by a call
    below it, panics (if the process is not ended first by another one).
    The call starts a goroutine for each of its sub-plans once [res[0]] is
    there (lines 168-176), none when there is no [res[0]]; a goroutine
    panics when its own call of [execute] does (line 177). *)
Fixpoint goroutinePanics (e : Executor) (p : Plan) {struct p} : bool :=
  match p with
  | mkPlan _ _ after =>
      match ownResult p with
      | [] => false
      | _ :: _ =>
          existsb (fun subPlan => isPanic (execute e subPlan []) || goroutinePanics e subPlan)
                  after
      end
  end.

(** *** Execute *)

Definition Execute (e : Executor) (q : Query W) : outcome value :=
  match planRoot (planner e) q with
  | Error err => Fail err
  | Ok p =>
      match execute e p [] with
      | Panic pn => Panic pn
      | Fail err => Fail err
      | Return r =>
          match r with
          | [] => Panic IndexOutOfRange
          | res :: _ => Return res
          end
      end
  end.

(** *** NewExecutor *)

(** Lines 38-50, over the entries in the order [range executors] yields
    them. *)
Fixpoint fetchSchemas (entries : list (string * ExecutorClient))
    (schemas : gmap string (introspectionQueryResult W))
  : result (gmap string (introspectionQueryResult W)) :=
  match entries with
  | [] => Ok schemas
  | (server, client) :: rest =>
      match fetchSchema client with
      | Error err => Error (ErrFetchingSchema server err)
      | Ok bytes =>
          match jsonUnmarshal W bytes with
          | Error err => Error (ErrUnmarshalingSchema server err)
          | Ok iq => fetchSchemas rest (<[server := iq]> schemas)
          end
      end
  end.

(** [NewExecutor] gives the caller's map as it leaves it together with
    what the call does: it returns an [Executor] pointer with a [nil]
    error, it returns [nil] with an error, or it panics.  Go ranges over a
    map in an order of its choosing: [entries] is that order, a permutation
    of [entriesOf executors]. *)
Definition NewExecutor (entries : list (string * ExecutorClient))
    (executors : gomap ExecutorClient)
  : gomap ExecutorClient * outcome Executor :=
  match fetchSchemas entries ∅ with
  | Error err => (executors, Fail err)
  | Ok schemas =>
      match convertSchema W schemas with
      | Error err => (executors, Fail (ErrConvertingSchema err))
      | Ok types =>
          let introspectionSchema := BareIntrospectionSchema W (typesSchema W types) in
          let introspectionServer := mkServer introspectionSchema in
          match executors with
          | nilMap => (nilMap, Panic NilMapWrite)
          | mapOf table =>
              let executors' :=
                mapOf (<["introspection" := DirectExecutorClient introspectionServer]> table) in
              let '(bytes, _) :=
                RunIntrospectionQuery W
                  (BareIntrospectionSchema W (schema introspectionServer)) in
              match jsonUnmarshal W bytes with
              | Error err => (executors', Fail (ErrUnmarshalingIntrospection err))
              | Ok iq =>
                  let schemas' := <["introspection" := iq]> schemas in
                  match convertSchema W schemas' with
                  | Error err => (executors', Fail err)
                  | Ok types' =>
                      match newFlattener W (typesSchema W types') with
                      | Error err => (executors', Fail err)
                      | Ok fl =>
                          (executors',
                           Return (mkExecutor executors' (mkPlanner types' fl)))
                      end
                  end
              end
          end
      end
  end.

End Gateway.

Arguments mkServer {W} schema.
Arguments BackendClient {W} answer.
Arguments DirectExecutorClient {W} Client.
Arguments Executors {W} e.
Arguments planner {W} e.

(** ** Vocabulary of the statements *)

(** What a follower holds after a second one appended to it. *)
Definition appendFollower (pf pf0 : pathFollower) : pathFollower :=
  mkPF (targets pf ++ targets pf0) (keys pf ++ keys pf0).

(** The walk of one node on its own, from a follower that holds nothing. *)
Definition walk (node : value) (path : list PathStep) : pathFollower * option error :=
  extractTargets node path emptyFollower.

(** The targets and the keys that the nodes of [nodes], each walked on its
    own, give one after the other. *)
Definition walkedTargets (nodes : list value) (path : list PathStep)
  : list (gmap string value) :=
  concat ((fun elem => targets (fst (walk elem path))) <$> nodes).

Definition walkedKeys (nodes : list value) (path : list PathStep) : list value :=
  concat ((fun elem => keys (fst (walk elem path))) <$> nodes).

(** A step of a walk that only appends to the follower it is given. *)
Definition appends (f : follow) : Prop :=
  forall pf, f pf = (appendFollower pf (fst (f emptyFollower)), snd (f emptyFollower)).

Definition isSlice (node : value) : bool :=
  match node with VList _ => true | _ => false end.

(** The plan with every path forgotten, at every depth. *)
Fixpoint erasePaths (p : Plan) : Plan :=
  match p with
  | mkPlan service _ after => mkPlan service [] (map erasePaths after)
  end.

(** The step of the construction that an error of [NewExecutor] names in
    its own text, when it names one. *)
Inductive step : Type :=
| FetchStep (server : string)
| UnmarshalStep (server : string)
| ConvertStep
| UnmarshalIntrospectionStep.

Definition namedStep (err : error) : option step :=
  match err with
  | ErrFetchingSchema server _ => Some (FetchStep server)
  | ErrUnmarshalingSchema server _ => Some (UnmarshalStep server)
  | ErrConvertingSchema _ => Some ConvertStep
  | ErrUnmarshalingIntrospection _ => Some UnmarshalIntrospectionStep
  | _ => None
  end.

(** The error that a call returns, [None] when it returns none. *)
Definition failure {A : Type} (o : outcome A) : option error :=
  match o with
  | Fail err => Some err
  | _ => None
  end.

(** The type name that a node reports: the string under "__typename" of an
    object. *)
Definition reportedType (node : value) : option string :=
  match node with
  | VObj obj => asString (obj !! "__typename")
  | _ => None
  end.

(** The error with which the loop of lines 38-50 stops at an entry, [None]
    when the entry's schema is fetched and decoded. *)
Definition schemaFailure (W : Env)
    (serverExecute : Server W -> Query W -> result (list Byte.byte))
    (server : string) (client : ExecutorClient W) : option error :=
  match fetchSchema W serverExecute client with
  | Error err => Some (ErrFetchingSchema server err)
  | Ok bytes =>
      match jsonUnmarshal W bytes with
      | Error err => Some (ErrUnmarshalingSchema server err)
      | Ok _ => None
      end
  end.

(** The introspection server of lines 57-58, for merged types [types]. *)
Definition introspectionServerOf (W : Env) (types : SchemaWithFederationInfo W)
  : Server W :=
  mkServer (BareIntrospectionSchema W (typesSchema W types)).

(** The bytes that line 61 hands to the decoder. *)
Definition introspectionBytes (W : Env) (types : SchemaWithFederationInfo W)
  : list Byte.byte :=
  fst (RunIntrospectionQuery W
         (BareIntrospectionSchema W (schema W (introspectionServerOf W types)))).

(** ** Small collaborators to run the model on

    Queries are units; schemas, decoded introspection results and merged
    types are numbers: decoding counts the bytes, merging counts the
    services, the introspection query answers with no byte. *)
Definition demoEnvWith
    (convert : gmap string nat -> result nat) (flatten : nat -> result nat) : Env :=
  mkEnv unit nat nat nat nat "gateway-coordinator"
        (Ok tt)
        (fun bytes => Ok (length bytes))
        convert
        (fun types => types)
        (fun sch => sch)
        (fun _ => ([], None))
        flatten.

Definition demoEnv : Env :=
  demoEnvWith (fun schemas => Ok (size schemas)) (fun sch => Ok sch).

(** The merge fails once the introspection pseudo-service is among the
    schemas. *)
Definition remergeFailsEnv : Env :=
  demoEnvWith
    (fun schemas =>
       match schemas !! "introspection" with
       | Some _ => Error (ErrExternal "conflict")
       | None => Ok (size schemas)
       end)
    (fun sch => Ok sch).

Definition flattenerFailsEnv : Env :=
  demoEnvWith (fun schemas => Ok (size schemas)) (fun _ => Error (ErrExternal "conflict")).

Definition demoServerExecute (W : Env) (srv : Server W) (req : Query W)
  : result (list Byte.byte) := Ok [].

Definition demoPlanRoot (p : Plan) (W : Env) (pl : Planner W) (q : Query W)
  : result Plan := Ok p.

Definition demoExecutor : Executor demoEnv :=
  mkExecutor demoEnv (mapOf ∅) (mkPlanner demoEnv 0 0).

Definition downClient (W : Env) : ExecutorClient W :=
  BackendClient (fun _ => Error (ErrExternal "connection refused")).

Definition upClient (W : Env) : ExecutorClient W :=
  BackendClient (fun _ => Ok []).

(** ** Vocabulary of the further properties *)

(** [inside obj node]: the object [obj] occurs in the tree [node], as the
    tree itself, under an element of a slice or under a field of an
    object. *)
Inductive inside (obj : gmap string value) : value -> Prop :=
| inside_here : inside obj (VObj obj)
| inside_elem (slice : list value) (elem : value) :
    elem ∈ slice -> inside obj elem -> inside obj (VList slice)
| inside_field (parent : gmap string value) (name : string) (next : value) :
    parent !! name = Some next -> inside obj next -> inside obj (VObj parent).

(** The follower's two slices are parallel and every target carries its
    key under "__federation". *)
Definition marked (pf : pathFollower) : Prop :=
  Forall2 (fun obj key => obj !! "__federation" = Some key) (targets pf) (keys pf).

(** The error under the "idx", "elem" and "typ" prefixes. *)
Fixpoint rootCause (err : error) : error :=
  match err with
  | ErrIdx _ err' => rootCause err'
  | ErrElem _ err' => rootCause err'
  | ErrTyp _ err' => rootCause err'
  | _ => err
  end.

(** The four errors that [extractTargets] makes itself. *)
Definition shapeError (err : error) : bool :=
  match err with
  | ErrNotAnObject | ErrMissingFederation _ | ErrNoKey _ | ErrNoTypename => true
  | _ => false
  end.

(** A tree made of slices, [nil] and scalars only. *)
Fixpoint objectFree (node : value) : bool :=
  match node with
  | VObj _ => false
  | VList slice => forallb objectFree slice
  | _ => true
  end.

(** An "idx" error with its index moved up by [n]. *)
Definition shiftIdx (n : nat) (r : option error) : option error :=
  match r with
  | Some (ErrIdx i err) => Some (ErrIdx (n + i) err)
  | other => other
  end.

(** Some node of the plan is on a service other than [coordinator] and has
    dependent plans. *)
Fixpoint servesChildren (coordinator : string) (p : Plan) : bool :=
  match p with
  | mkPlan service _ after =>
      (negb (bool_decide (service = coordinator)) && negb (bool_decide (after = [])))
      || existsb (servesChildren coordinator) after
  end.

(** Every node of the plan is on [coordinator]. *)
Fixpoint allCoordinator (coordinator : string) (p : Plan) : bool :=
  match p with
  | mkPlan service _ after =>
      bool_decide (service = coordinator) && forallb (allCoordinator coordinator) after
  end.

(** What the loop of lines 38-50 stores for a client, when it stores
    something. *)
Definition decodedSchema (W : Env)
    (serverExecute : Server W -> Query W -> result (list Byte.byte))
    (client : ExecutorClient W) : option (introspectionQueryResult W) :=
  match fetchSchema W serverExecute client with
  | Ok bytes =>
      match jsonUnmarshal W bytes with
      | Ok iq => Some iq
      | Error _ => None
      end
  | Error _ => None
  end.

(** Collaborators whose parser rejects the introspection query. *)
Definition noParseEnv : Env :=
  mkEnv unit nat nat nat nat "gateway-coordinator"
        (Error (ErrExternal "syntax error"))
        (fun bytes => Ok (length bytes))
        (fun schemas => Ok (size schemas))
        (fun types => types)
        (fun sch => sch)
        (fun _ => ([], None))
        (fun sch => Ok sch).

(** * Path following *)

(** Induction on result trees, with the elements of a slice covered. *)
Lemma value_slice_ind (P : value -> Prop) :
  P VNull ->
  (forall b, P (VBool b)) ->
  (forall n, P (VNum n)) ->
  (forall s, P (VStr s)) ->
  (forall slice, Forall P slice -> P (VList slice)) ->
  (forall obj, P (VObj obj)) ->
  forall node, P node.
Proof.
  intros Hnull Hbool Hnum Hstr Hlist Hobj.
  fix IH 1.
  intros [| b | n | s | slice | obj];
    [exact Hnull | apply Hbool | apply Hnum | apply Hstr | | apply Hobj].
  apply Hlist. induction slice as [| elem rest IHrest]; constructor.
  - apply IH.
  - exact IHrest.
Qed.

(** ** The equations of [extractTargets], case by case of the source *)

Lemma extractTargets_slice (slice : list value) (path : list PathStep) :
  extractTargets (VList slice) path
  = rangeSlice (fun elem => extractTargets elem path) slice 0.
Proof. destruct path; reflexivity. Qed.

Lemma extractTargets_exhausted (node : value) (pf : pathFollower) :
  (forall slice, node <> VList slice) ->
  extractTargets node [] pf
  = match asObject node with
    | None => (pf, Some ErrNotAnObject)
    | Some obj =>
        match obj !! "__federation" with
        | None => (pf, Some (ErrMissingFederation obj))
        | Some key => (mkPF (targets pf ++ [obj]) (keys pf ++ [key]), None)
        end
    end.
Proof. destruct node; intros Hnl; try reflexivity. by destruct (Hnl slice). Qed.

Lemma extractTargets_not_object (node : value) (step : PathStep)
    (path : list PathStep) (pf : pathFollower) :
  (forall slice, node <> VList slice) ->
  asObject node = None ->
  extractTargets node (step :: path) pf = (pf, None).
Proof.
  destruct node; intros Hnl Hobj; try reflexivity.
  - by destruct (Hnl slice).
  - discriminate.
Qed.

Lemma extractTargets_field (obj : gmap string value) (step : PathStep)
    (path : list PathStep) (pf : pathFollower) :
  Kind step = KindField ->
  extractTargets (VObj obj) (step :: path) pf
  = match obj !! Name step with
    | None => (pf, Some (ErrNoKey (Name step)))
    | Some next =>
        match extractTargets next path pf with
        | (pf', Some err) => (pf', Some (ErrElem next err))
        | (pf', None) => (pf', None)
        end
    end.
Proof. intros Hk. unfold extractTargets. simpl. rewrite Hk. reflexivity. Qed.

Lemma extractTargets_type (obj : gmap string value) (step : PathStep)
    (path : list PathStep) (pf : pathFollower) :
  Kind step = KindType ->
  extractTargets (VObj obj) (step :: path) pf
  = match asString (obj !! "__typename") with
    | None => (pf, Some ErrNoTypename)
    | Some typ =>
        if decide (typ = Name step) then
          match extractTargets (VObj obj) path pf with
          | (pf', Some err) => (pf', Some (ErrTyp typ err))
          | (pf', None) => (pf', None)
          end
        else (pf, None)
    end.
Proof. intros Hk. unfold extractTargets. simpl. rewrite Hk. reflexivity. Qed.

(** ** Appending only

    A walk never reads what the follower already holds: it appends to it
    what the same walk appends to an empty follower, and fails alike. *)

Lemma appendFollower_empty (pf : pathFollower) : appendFollower pf emptyFollower = pf.
Proof. destruct pf as [ts ks]. unfold appendFollower. simpl. by rewrite !app_nil_r. Qed.

Lemma appendFollower_assoc (pf pf1 pf2 : pathFollower) :
  appendFollower (appendFollower pf pf1) pf2 = appendFollower pf (appendFollower pf1 pf2).
Proof. unfold appendFollower. simpl. by rewrite !app_assoc. Qed.

Lemma appends_run (f : follow) (pf pf0 : pathFollower) (r : option error) :
  appends f -> f emptyFollower = (pf0, r) -> f pf = (appendFollower pf pf0, r).
Proof. intros Hf Hrun. rewrite Hf, Hrun. reflexivity. Qed.

Lemma rangeSlice_appends (visit : value -> follow) (slice : list value) :
  Forall (fun elem => appends (visit elem)) slice ->
  forall i, appends (rangeSlice visit slice i).
Proof.
  induction 1 as [| elem rest Helem _ IH]; intros i pf.
  - simpl. by rewrite appendFollower_empty.
  - simpl. rewrite (Helem pf).
    destruct (visit elem emptyFollower) as [pf1 [err |]] eqn:Hrun; simpl.
    + reflexivity.
    + rewrite (IH (S i) (appendFollower pf pf1)), (IH (S i) pf1).
      simpl. by rewrite appendFollower_assoc.
Qed.

Lemma extractTargets_appends (node : value) (path : list PathStep) :
  appends (extractTargets node path).
Proof.
  revert node. induction path as [| step path IH]; intros node;
    induction node as [| b | n | s | slice IHslice | obj] using value_slice_ind;
    try (intros pf; cbn; by rewrite appendFollower_empty);
    try (rewrite extractTargets_slice; by apply rangeSlice_appends).
  - intros pf. rewrite !extractTargets_exhausted by done. simpl.
    destruct (obj !! "__federation"); simpl.
    + reflexivity.
    + by rewrite appendFollower_empty.
  - intros pf. destruct (Kind step) eqn:Hk.
    + rewrite !extractTargets_field by done.
      destruct (obj !! Name step) as [next |]; [| simpl; by rewrite appendFollower_empty].
      rewrite (IH next pf).
      by destruct (extractTargets next path emptyFollower) as [pf1 [err |]].
    + rewrite !extractTargets_type by done.
      destruct (asString (obj !! "__typename")) as [typ |];
        [| simpl; by rewrite appendFollower_empty].
      case_decide; [| simpl; by rewrite appendFollower_empty].
      rewrite (IH (VObj obj) pf).
      by destruct (extractTargets (VObj obj) path emptyFollower) as [pf1 [err |]].
Qed.

(** ** The loop over a slice *)

Lemma rangeSlice_all (visit : value -> follow) (slice : list value) :
  Forall (fun elem => appends (visit elem)) slice ->
  Forall (fun elem => snd (visit elem emptyFollower) = None) slice ->
  forall i pf,
    rangeSlice visit slice i pf
    = (mkPF (targets pf ++ concat ((fun elem => targets (fst (visit elem emptyFollower))) <$> slice))
            (keys pf ++ concat ((fun elem => keys (fst (visit elem emptyFollower))) <$> slice)),
       None).
Proof.
  induction 1 as [| elem rest Helem _ IH]; intros Hok i pf.
  - simpl. rewrite !app_nil_r. by destruct pf.
  - inversion Hok as [| ? ? Hhd Htl]; subst. simpl.
    rewrite (Helem pf).
    destruct (visit elem emptyFollower) as [pf1 r] eqn:Hrun. simpl in Hhd. subst r.
    simpl. rewrite (IH Htl). simpl. by rewrite !app_assoc.
Qed.

Lemma rangeSlice_stop (visit : value -> follow) (before after : list value)
    (elem : value) (err : error) :
  Forall (fun e => appends (visit e)) (before ++ [elem]) ->
  Forall (fun e => snd (visit e emptyFollower) = None) before ->
  snd (visit elem emptyFollower) = Some err ->
  forall i pf,
    rangeSlice visit (before ++ elem :: after) i pf
    = (mkPF (targets pf
               ++ concat ((fun e => targets (fst (visit e emptyFollower))) <$> before)
               ++ targets (fst (visit elem emptyFollower)))
            (keys pf
               ++ concat ((fun e => keys (fst (visit e emptyFollower))) <$> before)
               ++ keys (fst (visit elem emptyFollower))),
       Some (ErrIdx (i + length before) err)).
Proof.
  induction before as [| e before IH]; intros Happ Hok Herr i pf.
  - simpl. inversion Happ as [| ? ? Helem _]; subst. rewrite (Helem pf).
    destruct (visit elem emptyFollower) as [pf1 r]. simpl in Herr. subst r. simpl.
    by rewrite Nat.add_0_r.
  - inversion Happ as [| ? ? He Happ']; subst.
    inversion Hok as [| ? ? Hhd Htl]; subst. simpl.
    rewrite (He pf).
    destruct (visit e emptyFollower) as [pf1 r]. simpl in Hhd. subst r. simpl.
    rewrite (IH Happ' Htl Herr). simpl.
    rewrite !app_assoc. by rewrite Nat.add_succ_r.
Qed.

Lemma walk_slice_appends (slice : list value) (path : list PathStep) :
  Forall (fun elem => appends (fun pf => extractTargets elem path pf)) slice.
Proof. apply Forall_forall. intros elem _. apply extractTargets_appends. Qed.

(** ** Claims on [extractTargets] *)

(** C5.  On a slice, the remaining path is applied to every element on its
    own, in element order.  When every element succeeds, the follower
    receives the targets and keys of the elements one after the other; when
    an element fails, the elements before it have been appended, the error
    is tagged with the index of that element, and no later element is
    visited.  In particular a slice of objects that each carry
    "__federation", walked with an empty path, gives these objects as
    targets and their markers as keys, in the order of the slice. *)
Theorem extractTargets_fans_out (path : list PathStep) (pf : pathFollower) :
  (forall slice,
     Forall (fun elem => snd (walk elem path) = None) slice ->
     extractTargets (VList slice) path pf
     = (mkPF (targets pf ++ walkedTargets slice path)
             (keys pf ++ walkedKeys slice path), None))
  /\ (forall before elem after err,
        Forall (fun e => snd (walk e path) = None) before ->
        snd (walk elem path) = Some err ->
        extractTargets (VList (before ++ elem :: after)) path pf
        = (mkPF (targets pf ++ walkedTargets before path ++ targets (fst (walk elem path)))
                (keys pf ++ walkedKeys before path ++ keys (fst (walk elem path))),
           Some (ErrIdx (length before) err)))
  /\ (forall objs ks,
        path = [] ->
        Forall2 (fun obj key => obj !! "__federation" = Some key) objs ks ->
        extractTargets (VList (VObj <$> objs)) path pf
        = (mkPF (targets pf ++ objs) (keys pf ++ ks), None)).
Proof.
  assert (Hall : forall slice,
     Forall (fun elem => snd (walk elem path) = None) slice ->
     extractTargets (VList slice) path pf
     = (mkPF (targets pf ++ walkedTargets slice path)
             (keys pf ++ walkedKeys slice path), None)).
  { intros slice Hok. rewrite extractTargets_slice.
    apply (rangeSlice_all (fun elem => extractTargets elem path));
      [apply walk_slice_appends | exact Hok]. }
  split; [exact Hall | split].
  - intros before elem after err Hok Herr. rewrite extractTargets_slice.
    apply (rangeSlice_stop (fun e => extractTargets e path) before after elem err);
      [apply walk_slice_appends | exact Hok | exact Herr].
  - intros objs ks -> Hmarks.
    assert (Hwalk : forall obj key, obj !! "__federation" = Some key ->
              walk (VObj obj) [] = (mkPF [obj] [key], None)).
    { intros obj key Hkey. unfold walk.
      rewrite extractTargets_exhausted by done. simpl. by rewrite Hkey. }
    rewrite Hall.
    + assert (Hts : walkedTargets (VObj <$> objs) [] = objs
                    /\ walkedKeys (VObj <$> objs) [] = ks).
      { unfold walkedTargets, walkedKeys.
        induction Hmarks as [| obj key objs ks Hkey _ [IHt IHk]]; [done |].
        rewrite !fmap_cons. cbn [concat].
        rewrite (Hwalk obj key Hkey), IHt, IHk. done. }
      destruct Hts as [-> ->]. reflexivity.
    + induction Hmarks as [| obj key objs ks Hkey _ IH]; constructor; [| exact IH].
      by rewrite (Hwalk obj key Hkey).
Qed.

(** C6, as stated, fails: with an exhausted path a node that is not an
    object does not always give an error, since a slice is not an object
    and an empty one is walked with no error. *)
Lemma exhausted_path_slice_no_error :
  ~ (forall node pf,
       asObject node = None ->
       exists err, snd (extractTargets node [] pf) = Some err).
Proof.
  intros Hclaim.
  destruct (Hclaim (VList []) emptyFollower eq_refl) as [err Herr].
  discriminate Herr.
Qed.

(** C6, amended.  With an exhausted path and a current node that is not a
    slice: an object that carries "__federation" is appended as a target
    with the field's value as its key, and no error is returned; an object
    without the field, and a node that is not an object, give an error and
    leave the follower as it was. *)
Theorem extractTargets_exhausted_path (node : value) (pf : pathFollower) :
  isSlice node = false ->
  (forall obj key,
     node = VObj obj -> obj !! "__federation" = Some key ->
     extractTargets node [] pf
     = (mkPF (targets pf ++ [obj]) (keys pf ++ [key]), None))
  /\ (forall obj,
        node = VObj obj -> obj !! "__federation" = None ->
        extractTargets node [] pf = (pf, Some (ErrMissingFederation obj)))
  /\ (asObject node = None ->
      extractTargets node [] pf = (pf, Some ErrNotAnObject)).
Proof.
  intros Hns.
  assert (Hnl : forall slice, node <> VList slice) by (intros slice ->; discriminate).
  rewrite (extractTargets_exhausted node pf Hnl).
  split; [| split].
  - intros obj key -> Hkey. simpl. by rewrite Hkey.
  - intros obj -> Hkey. simpl. by rewrite Hkey.
  - intros Hno. by rewrite Hno.
Qed.

(** C7, as stated, fails: before a field step a node that is not an object
    (here [nil]) gives no error and no target. *)
Lemma field_step_non_object_no_error :
  ~ (forall node name path pf,
       isSlice node = false ->
       (forall obj, node = VObj obj -> obj !! name = None) ->
       exists err, snd (extractTargets node (mkStep KindField name :: path) pf) = Some err).
Proof.
  intros Hclaim.
  destruct (Hclaim VNull "orders" [] emptyFollower eq_refl) as [err Herr].
  - intros obj Hobj. discriminate Hobj.
  - discriminate Herr.
Qed.

(** C7, amended.  With a path that starts with a field step and a current
    node that is not a slice: an object that lacks the field gives the
    error "does not have key"; a node that is not an object gives no error
    and no target.  Either way the follower is left as it was. *)
Theorem extractTargets_field_step (node : value) (step : PathStep)
    (path : list PathStep) (pf : pathFollower) :
  isSlice node = false ->
  Kind step = KindField ->
  (forall obj,
     node = VObj obj -> obj !! Name step = None ->
     extractTargets node (step :: path) pf = (pf, Some (ErrNoKey (Name step))))
  /\ (asObject node = None ->
      extractTargets node (step :: path) pf = (pf, None)).
Proof.
  intros Hns Hk. split.
  - intros obj -> Hlook. rewrite extractTargets_field by exact Hk. by rewrite Hlook.
  - intros Hno. apply extractTargets_not_object; [| exact Hno].
    intros slice ->. discriminate Hns.
Qed.

(** C8, as stated, fails: before a type step a node that is not an object
    (here [nil]) reports no type name, and yet gives no error. *)
Lemma type_step_non_object_no_error :
  ~ (forall node step path pf,
       isSlice node = false ->
       Kind step = KindType ->
       reportedType node = None ->
       exists err, snd (extractTargets node (step :: path) pf) = Some err).
Proof.
  intros Hclaim.
  destruct (Hclaim VNull (mkStep KindType "User") [] emptyFollower
              eq_refl eq_refl eq_refl) as [err Herr].
  discriminate Herr.
Qed.

(** C8, amended.  With a path that starts with a type step and a current
    node that is not a slice: on an object, when "__typename" is absent or
    is not a string, the error "does not have string key __typename" is
    returned; when it is a string other than the step's name, no error is
    returned and the follower is left as it was, so that no target and no
    key is added; a node that is not an object gives no error and no
    target either. *)
Theorem extractTargets_type_step (node : value) (step : PathStep)
    (path : list PathStep) (pf : pathFollower) :
  isSlice node = false ->
  Kind step = KindType ->
  (forall obj,
     node = VObj obj ->
     asString (obj !! "__typename") = None ->
     extractTargets node (step :: path) pf = (pf, Some ErrNoTypename))
  /\ (forall obj typ,
        node = VObj obj ->
        obj !! "__typename" = Some (VStr typ) -> typ <> Name step ->
        extractTargets node (step :: path) pf = (pf, None)
        /\ walk node (step :: path) = (emptyFollower, None))
  /\ (asObject node = None ->
      extractTargets node (step :: path) pf = (pf, None)).
Proof.
  intros Hns Hk. split; [| split].
  - intros obj -> Hno. rewrite extractTargets_type by exact Hk. by rewrite Hno.
  - intros obj typ -> Htyp Hne. unfold walk.
    rewrite !extractTargets_type by exact Hk. rewrite Htyp. simpl.
    rewrite !decide_False by exact Hne. done.
  - intros Hno. apply extractTargets_not_object; [| exact Hno].
    intros slice ->. discriminate Hns.
Qed.

Lemma extractTargets_fans_out_witness :
  extractTargets
    (VList [VObj {["__federation" := VNum 1]}; VObj {["__federation" := VNum 2]}])
    [] emptyFollower
  = (mkPF [{["__federation" := VNum 1]}; {["__federation" := VNum 2]}]
          [VNum 1; VNum 2], None)
  /\ extractTargets
       (VList [VObj {["__federation" := VNum 1]}; VNull; VObj {["__federation" := VNum 2]}])
       [] emptyFollower
     = (mkPF [{["__federation" := VNum 1]}] [VNum 1], Some (ErrIdx 1 ErrNotAnObject)).
Proof.
  destruct (extractTargets_fans_out [] emptyFollower) as (_ & Hstop & Hobjs).
  split.
  - apply (Hobjs [{["__federation" := VNum 1]}; {["__federation" := VNum 2]}]
                 [VNum 1; VNum 2] eq_refl).
    repeat constructor.
  - assert (Hbefore : Forall (fun e => snd (walk e []) = None)
                               [VObj {["__federation" := VNum 1]}])
      by (repeat constructor).
    generalize (Hstop [VObj {["__federation" := VNum 1]}] VNull
                      [VObj {["__federation" := VNum 2]}] ErrNotAnObject
                      Hbefore eq_refl).
    vm_compute. intros Hrun. exact Hrun.
Defined.

Lemma extractTargets_exhausted_path_witness :
  extractTargets (VObj {["__federation" := VNum 7]}) [] emptyFollower
  = (mkPF [{["__federation" := VNum 7]}] [VNum 7], None)
  /\ extractTargets (VObj ∅) [] emptyFollower
     = (emptyFollower, Some (ErrMissingFederation ∅))
  /\ extractTargets (VStr "u1") [] emptyFollower
     = (emptyFollower, Some ErrNotAnObject).
Proof.
  split; [| split].
  - apply (extractTargets_exhausted_path (VObj {["__federation" := VNum 7]})
             emptyFollower eq_refl); reflexivity.
  - apply (extractTargets_exhausted_path (VObj ∅) emptyFollower eq_refl); reflexivity.
  - apply (extractTargets_exhausted_path (VStr "u1") emptyFollower eq_refl); reflexivity.
Defined.

Lemma extractTargets_field_step_witness :
  extractTargets (VObj {["id" := VNum 1]}) [mkStep KindField "buyer"] emptyFollower
  = (emptyFollower, Some (ErrNoKey "buyer"))
  /\ extractTargets VNull [mkStep KindField "buyer"] emptyFollower
     = (emptyFollower, None).
Proof.
  split.
  - destruct (extractTargets_field_step (VObj {["id" := VNum 1]})
                (mkStep KindField "buyer") [] emptyFollower eq_refl eq_refl)
      as [Hlacks _].
    apply (Hlacks {["id" := VNum 1]} eq_refl). reflexivity.
  - destruct (extractTargets_field_step VNull
                (mkStep KindField "buyer") [] emptyFollower eq_refl eq_refl)
      as [_ Hnot].
    apply Hnot. reflexivity.
Defined.

Lemma extractTargets_type_step_witness :
  extractTargets (VObj {["id" := VNum 1]}) [mkStep KindType "User"] emptyFollower
  = (emptyFollower, Some ErrNoTypename)
  /\ extractTargets (VObj {["__typename" := VStr "Admin"]})
       [mkStep KindType "User"] emptyFollower
     = (emptyFollower, None)
  /\ extractTargets VNull [mkStep KindType "User"] emptyFollower
     = (emptyFollower, None).
Proof.
  split; [| split].
  - destruct (extractTargets_type_step (VObj {["id" := VNum 1]})
                (mkStep KindType "User") [] emptyFollower eq_refl eq_refl)
      as (Hno & _ & _).
    apply (Hno {["id" := VNum 1]} eq_refl). reflexivity.
  - destruct (extractTargets_type_step (VObj {["__typename" := VStr "Admin"]})
                (mkStep KindType "User") [] emptyFollower eq_refl eq_refl)
      as (_ & Hother & _).
    destruct (Hother {["__typename" := VStr "Admin"]} "Admin" eq_refl) as [Hrun _].
    + reflexivity.
    + discriminate.
    + exact Hrun.
  - destruct (extractTargets_type_step VNull
                (mkStep KindType "User") [] emptyFollower eq_refl eq_refl)
      as (_ & _ & Hnot).
    apply Hnot. reflexivity.
Defined.

(** * Plan execution *)

(** Induction on plans, with the dependent plans covered. *)
Lemma Plan_after_ind (P : Plan -> Prop) :
  (forall service path after, Forall P after -> P (mkPlan service path after)) ->
  forall p, P p.
Proof.
  intros Hplan. fix IH 1. intros [service path after].
  apply Hplan. induction after as [| subPlan rest IHrest]; constructor.
  - apply IH.
  - exact IHrest.
Qed.

(** The loop over the dependent plans only sees them through [exec]. *)
Lemma rangeAfter_ext (exec exec' : Plan -> list value -> outcome (list value))
    (subs subs' : list Plan) :
  Forall2 (fun sub sub' => forall ks ks', exec sub ks = exec' sub' ks') subs subs' ->
  forall res failed,
    rangeAfter exec subs res failed = rangeAfter exec' subs' res failed.
Proof.
  induction 1 as [| sub sub' subs subs' Hsub _ IH]; intros res failed; [done |].
  simpl. destruct (newFollower res sub) as [pf | err | pn] eqn:Hpf.
  - assert (Hpf' : newFollower res sub' = Return pf) by exact Hpf.
    rewrite Hpf'. rewrite (Hsub (keys pf) (keys pf)).
    destruct (goroutine (exec' sub' (keys pf)) pf res); auto.
  - assert (Hpf' : newFollower res sub' = Fail err) by exact Hpf.
    by rewrite Hpf'.
  - assert (Hpf' : newFollower res sub' = Panic pn) by exact Hpf.
    by rewrite Hpf'.
Qed.

Lemma execute_unfold (W : Env) (e : Executor W) (p : Plan) (keys : list value) :
  execute W e p keys = rangeAfter (execute W e) (After p) (ownResult W p) None.
Proof. destruct p; reflexivity. Qed.

(** Neither the executor's clients nor the keys reach the outcome. *)
Lemma execute_same (W : Env) (e e' : Executor W) (p : Plan) :
  forall keys keys', execute W e p keys = execute W e' p keys'.
Proof.
  induction p as [service path after IH] using Plan_after_ind.
  intros keys keys'. rewrite !execute_unfold. simpl.
  apply rangeAfter_ext.
  induction IH as [| sub rest Hsub _ IHrest]; constructor; auto.
Qed.

(** No path reaches the outcome. *)
Lemma execute_erasePaths (W : Env) (e : Executor W) (p : Plan) :
  forall keys, execute W e p keys = execute W e (erasePaths p) keys.
Proof.
  induction p as [service path after IH] using Plan_after_ind.
  intros keys. rewrite !execute_unfold. simpl.
  apply rangeAfter_ext.
  induction IH as [| sub rest Hsub _ IHrest]; simpl; constructor; [| exact IHrest].
  intros ks ks'. rewrite <- (Hsub ks'). apply execute_same.
Qed.

Lemma ownResult_coordinator (W : Env) (p : Plan) :
  Service p = gatewayCoordinatorServiceName W -> ownResult W p = [VObj ∅].
Proof. intros Hs. unfold ownResult. by rewrite decide_True. Qed.

Lemma ownResult_service (W : Env) (p : Plan) :
  Service p <> gatewayCoordinatorServiceName W -> ownResult W p = [].
Proof. intros Hs. unfold ownResult. by rewrite decide_False. Qed.

Lemma execute_leaf (W : Env) (e : Executor W) (p : Plan) (keys : list value) :
  After p = [] -> execute W e p keys = Return (ownResult W p).
Proof. intros Hleaf. rewrite execute_unfold, Hleaf. reflexivity. Qed.

Lemma execute_service_with_children (W : Env) (e : Executor W) (p : Plan)
    (keys : list value) :
  Service p <> gatewayCoordinatorServiceName W ->
  After p <> [] ->
  execute W e p keys = Panic IndexOutOfRange.
Proof.
  intros Hs Hafter. rewrite execute_unfold, (ownResult_service W p Hs).
  destruct (After p) as [| subPlan rest]; [done | reflexivity].
Qed.

(** A walk of the coordinator's empty object fails, whatever the path. *)
Lemma walk_empty_object_fails (path : list PathStep) :
  exists err, snd (walk (VObj ∅) path) = Some err.
Proof.
  unfold walk. destruct path as [| [[|] name] path].
  - eexists. reflexivity.
  - rewrite extractTargets_field by done. simpl. rewrite lookup_empty. eauto.
  - rewrite extractTargets_type by done. rewrite lookup_empty. simpl. eauto.
Qed.

(** ** Claims on [execute] and [Execute] *)

(** C1 (the code departs from the claim).  [execute] never walks a path:
    its outcome is the same with every path of the plan forgotten.  A
    coordinator plan with one dependent coordinator plan returns the root
    object whatever the path of the dependent plan, the root having been
    its only target and its keys [nil]; the walk of that path against the
    root's result, which the claim prescribes, fails for every path. *)
Theorem execute_does_not_follow_paths (W : Env) (e : Executor W) :
  (forall p keys, execute W e p keys = execute W e (erasePaths p) keys)
  /\ (forall path keys,
        execute W e
          (mkPlan (gatewayCoordinatorServiceName W) []
                  [mkPlan (gatewayCoordinatorServiceName W) path []]) keys
        = Return [VObj ∅])
  /\ (forall res subPlan pf,
        newFollower res subPlan = Return pf ->
        keys pf = [] /\ VObj <$> targets pf = take 1 res)
  /\ (forall path, exists err, snd (walk (VList [VObj ∅]) path) = Some err).
Proof.
  split; [| split; [| split]].
  - intros p keys. apply execute_erasePaths.
  - intros path keys. rewrite execute_unfold. simpl.
    rewrite ownResult_coordinator by done. simpl.
    rewrite ownResult_coordinator by done. simpl.
    by rewrite (left_id_L ∅ (∪)).
  - intros res subPlan pf Hpf.
    destruct res as [| [| | | | |obj] rest]; simpl in Hpf; try discriminate.
    injection Hpf as <-. done.
  - intros path. destruct (walk_empty_object_fails path) as [err Herr].
    exists (ErrIdx 0 err). unfold walk in *.
    rewrite extractTargets_slice. simpl.
    destruct (extractTargets (VObj ∅) path emptyFollower) as [pf r].
    simpl in Herr. by subst r.
Qed.

(** C2 (the code departs from the claim).  Whatever clients the executor
    holds and whatever keys it is given, the outcome of [execute] is the
    same: no client is asked and no key is bound.  A plan on the
    coordinator with no dependent plan returns one empty object; a plan on
    any other service with no dependent plan returns the [nil] slice. *)
Theorem execute_asks_no_client (W : Env) (e : Executor W) (p : Plan)
    (keys : list value) :
  (forall e' keys', execute W e p keys = execute W e' p keys')
  /\ (After p = [] -> Service p = gatewayCoordinatorServiceName W ->
      execute W e p keys = Return [VObj ∅])
  /\ (After p = [] -> Service p <> gatewayCoordinatorServiceName W ->
      execute W e p keys = Return []).
Proof.
  split; [| split].
  - intros e' keys'. apply execute_same.
  - intros Hleaf Hs. by rewrite execute_leaf, ownResult_coordinator.
  - intros Hleaf Hs. by rewrite execute_leaf, ownResult_service.
Qed.

(** C3 (the code departs from the claim).  For a plan of a single node on
    a service other than the coordinator, [execute] returns the [nil]
    slice, not the service's answer, and [Execute] panics on its first
    element. *)
Theorem single_node_plan_returns_nothing (W : Env)
    (planRoot : Planner W -> Query W -> result Plan)
    (e : Executor W) (q : Query W) (p : Plan) :
  planRoot (planner e) q = Ok p ->
  After p = [] ->
  Service p <> gatewayCoordinatorServiceName W ->
  execute W e p [] = Return []
  /\ Execute W planRoot e q = Panic IndexOutOfRange.
Proof.
  intros Hplan Hleaf Hs.
  assert (Hrun : execute W e p [] = Return [])
    by (by rewrite execute_leaf, ownResult_service).
  split; [exact Hrun |].
  unfold Execute. by rewrite Hplan, Hrun.
Qed.

(** C4 (the code departs from the claim).  On a plan whose service is not
    the coordinator, [execute] panics as soon as the plan has a dependent
    plan, and [Execute] panics whether it has one or not: neither is
    total. *)
Theorem non_coordinator_plan_panics (W : Env)
    (planRoot : Planner W -> Query W -> result Plan)
    (e : Executor W) (p : Plan) :
  Service p <> gatewayCoordinatorServiceName W ->
  (forall keys, After p <> [] -> execute W e p keys = Panic IndexOutOfRange)
  /\ (forall q, planRoot (planner e) q = Ok p ->
        Execute W planRoot e q = Panic IndexOutOfRange).
Proof.
  intros Hs. split.
  - intros keys Hafter. by apply execute_service_with_children.
  - intros q Hplan. unfold Execute. rewrite Hplan.
    destruct (After p) as [| subPlan rest] eqn:Hafter.
    + by rewrite execute_leaf, ownResult_service.
    + rewrite execute_service_with_children; [done | done |].
      by rewrite Hafter.
Qed.

Lemma execute_does_not_follow_paths_witness :
  execute demoEnv demoExecutor
    (mkPlan "gateway-coordinator" []
            [mkPlan "gateway-coordinator" [mkStep KindField "orders"] []]) []
  = Return [VObj ∅]
  /\ keys (mkPF [∅] []) = []
  /\ snd (walk (VList [VObj ∅]) [mkStep KindField "orders"])
     = Some (ErrIdx 0 (ErrNoKey "orders")).
Proof.
  destruct (execute_does_not_follow_paths demoEnv demoExecutor)
    as (_ & Hroot & Hfollower & _).
  split; [| split].
  - exact (Hroot [mkStep KindField "orders"] []).
  - exact (proj1 (Hfollower [VObj ∅]
                    (mkPlan "gateway-coordinator" [mkStep KindField "orders"] [])
                    (mkPF [∅] []) eq_refl)).
  - reflexivity.
Defined.

Lemma execute_asks_no_client_witness :
  execute demoEnv demoExecutor (mkPlan "gateway-coordinator" [] []) [] = Return [VObj ∅]
  /\ execute demoEnv demoExecutor (mkPlan "users" [] []) [VNum 1] = Return [].
Proof.
  split.
  - destruct (execute_asks_no_client demoEnv demoExecutor
                (mkPlan "gateway-coordinator" [] []) []) as (_ & Hcoord & _).
    apply Hcoord; reflexivity.
  - destruct (execute_asks_no_client demoEnv demoExecutor
                (mkPlan "users" [] []) [VNum 1]) as (_ & _ & Hservice).
    apply Hservice; [reflexivity | discriminate].
Defined.

Lemma single_node_plan_returns_nothing_witness :
  execute demoEnv demoExecutor (mkPlan "users" [] []) [] = Return []
  /\ Execute demoEnv (demoPlanRoot (mkPlan "users" [] []) demoEnv) demoExecutor tt
     = Panic IndexOutOfRange.
Proof.
  apply (single_node_plan_returns_nothing demoEnv
           (demoPlanRoot (mkPlan "users" [] []) demoEnv) demoExecutor tt
           (mkPlan "users" [] [])).
  - reflexivity.
  - reflexivity.
  - discriminate.
Defined.

Lemma non_coordinator_plan_panics_witness :
  execute demoEnv demoExecutor
    (mkPlan "orders" [] [mkPlan "users" [mkStep KindField "orders"] []]) []
  = Panic IndexOutOfRange
  /\ Execute demoEnv
       (demoPlanRoot (mkPlan "orders" [] [mkPlan "users" [mkStep KindField "orders"] []])
                     demoEnv)
       demoExecutor tt
     = Panic IndexOutOfRange.
Proof.
  destruct (non_coordinator_plan_panics demoEnv
              (demoPlanRoot (mkPlan "orders" [] [mkPlan "users" [mkStep KindField "orders"] []])
                            demoEnv)
              demoExecutor
              (mkPlan "orders" [] [mkPlan "users" [mkStep KindField "orders"] []]))
    as [Hexec HExec].
  - discriminate.
  - split.
    + apply Hexec. discriminate.
    + apply HExec. reflexivity.
Defined.

(** * Gateway construction *)

Section Construction.

Variable W : Env.
Variable serverExecute : Server W -> Query W -> result (list Byte.byte).

Lemma schemaFailure_names_step (server : string) (client : ExecutorClient W)
    (err : error) :
  schemaFailure W serverExecute server client = Some err ->
  namedStep err = Some (FetchStep server) \/ namedStep err = Some (UnmarshalStep server).
Proof.
  unfold schemaFailure.
  destruct (fetchSchema W serverExecute client) as [bytes | e0].
  - destruct (jsonUnmarshal W bytes) as [iq | e1]; [discriminate |].
    intros [= <-]. by right.
  - intros [= <-]. by left.
Qed.

Lemma fetchSchemas_cons (server : string) (client : ExecutorClient W)
    (rest : list (string * ExecutorClient W))
    (schemas : gmap string (introspectionQueryResult W)) :
  fetchSchemas W serverExecute ((server, client) :: rest) schemas
  = match schemaFailure W serverExecute server client with
    | Some err => Error err
    | None =>
        match fetchSchema W serverExecute client with
        | Ok bytes =>
            match jsonUnmarshal W bytes with
            | Ok iq => fetchSchemas W serverExecute rest (<[server := iq]> schemas)
            | Error err => Error err
            end
        | Error err => Error err
        end
    end.
Proof.
  simpl. unfold schemaFailure.
  destruct (fetchSchema W serverExecute client) as [bytes | e0]; [| done].
  by destruct (jsonUnmarshal W bytes).
Qed.

(** The loop stops at the first entry, in the order of the range, whose
    schema cannot be fetched or decoded. *)
Lemma fetchSchemas_stops (entries : list (string * ExecutorClient W)) :
  forall schemas,
    (exists server client,
        (server, client) ∈ entries
        /\ is_Some (schemaFailure W serverExecute server client)) ->
    exists server' client' err',
      (server', client') ∈ entries
      /\ schemaFailure W serverExecute server' client' = Some err'
      /\ fetchSchemas W serverExecute entries schemas = Error err'.
Proof.
  induction entries as [| [server0 client0] rest IH]; intros schemas Hbad.
  - destruct Hbad as (server & client & Hin & _). by apply elem_of_nil in Hin.
  - rewrite fetchSchemas_cons.
    destruct (schemaFailure W serverExecute server0 client0) as [err0 |] eqn:Hhead.
    + exists server0, client0, err0. split; [apply list_elem_of_here | done].
    + destruct Hbad as (server & client & Hin & Hfail).
      apply elem_of_cons in Hin as [[= -> ->] | Hin].
      { rewrite Hhead in Hfail. by destruct Hfail. }
      unfold schemaFailure in Hhead.
      destruct (fetchSchema W serverExecute client0) as [bytes | e0]; [| discriminate].
      destruct (jsonUnmarshal W bytes) as [iq | e1]; [| discriminate].
      destruct (IH (<[server0 := iq]> schemas)) as (server' & client' & err' & Hin' & Hf & Hrun).
      { by exists server, client. }
      exists server', client', err'. split; [by apply list_elem_of_further | done].
Qed.

(** ** Claims on [NewExecutor] *)

(** C9, amended.  Construction fails fast: when the schema of some service
    of the map cannot be fetched or decoded, [NewExecutor] returns no
    executor and the error of a service of the map that names the fetch or
    the decoding and that service; when the first merge fails it returns no
    executor and an error that names that step; on a map that is not [nil],
    when the decoding of the introspection server's own schema fails it
    returns no executor and an error that names that step, and when the
    second merge fails, or the flattener, it returns no executor and the
    error of the merge or of the flattener as it is, with no step named. *)
Theorem NewExecutor_fails_fast (entries : list (string * ExecutorClient W))
    (executors : gomap (ExecutorClient W)) :
  entries ≡ₚ entriesOf executors ->
  (forall server client,
     executors !! server = Some client ->
     is_Some (schemaFailure W serverExecute server client) ->
     exists server' client' err',
       executors !! server' = Some client'
       /\ schemaFailure W serverExecute server' client' = Some err'
       /\ (namedStep err' = Some (FetchStep server')
           \/ namedStep err' = Some (UnmarshalStep server'))
       /\ NewExecutor W serverExecute entries executors = (executors, Fail err'))
  /\ (forall schemas,
        fetchSchemas W serverExecute entries ∅ = Ok schemas ->
        (forall err,
           convertSchema W schemas = Error err ->
           NewExecutor W serverExecute entries executors
           = (executors, Fail (ErrConvertingSchema err)))
        /\ (forall table types,
              executors = mapOf table ->
              convertSchema W schemas = Ok types ->
              (forall err,
                 jsonUnmarshal W (introspectionBytes W types) = Error err ->
                 snd (NewExecutor W serverExecute entries executors)
                 = Fail (ErrUnmarshalingIntrospection err))
              /\ (forall iq,
                    jsonUnmarshal W (introspectionBytes W types) = Ok iq ->
                    (forall err,
                       convertSchema W (<["introspection" := iq]> schemas) = Error err ->
                       snd (NewExecutor W serverExecute entries executors) = Fail err)
                    /\ (forall types' err,
                          convertSchema W (<["introspection" := iq]> schemas) = Ok types' ->
                          newFlattener W (typesSchema W types') = Error err ->
                          snd (NewExecutor W serverExecute entries executors)
                          = Fail err)))).
Proof.
  intros Hperm. split.
  - intros server client Hlook Hfail.
    destruct executors as [| table]; [discriminate Hlook |].
    simpl in Hperm. unfold lookup, gomap_lookup in Hlook.
    destruct (fetchSchemas_stops entries ∅) as (server' & client' & err' & Hin & Hf & Hrun).
    { exists server, client. split; [| exact Hfail].
      rewrite Hperm. by apply elem_of_map_to_list. }
    exists server', client', err'. repeat split.
    + unfold lookup, gomap_lookup. apply elem_of_map_to_list. by rewrite <- Hperm.
    + exact Hf.
    + by apply (schemaFailure_names_step server' client').
    + unfold NewExecutor. by rewrite Hrun.
  - intros schemas Hfetch. unfold NewExecutor. rewrite Hfetch. split.
    + intros err Hconv. by rewrite Hconv.
    + intros table types -> Hconv. rewrite Hconv.
      unfold introspectionBytes, introspectionServerOf. simpl.
      destruct (RunIntrospectionQuery W
                  (BareIntrospectionSchema W
                     (BareIntrospectionSchema W (typesSchema W types))))
        as [bytes ignored]. simpl.
      split.
      * intros err Hjson. by rewrite Hjson.
      * intros iq Hjson. rewrite Hjson. split.
        -- intros err Hconv'. by rewrite Hconv'.
        -- intros types' err Hconv' Hflat. by rewrite Hconv', Hflat.
Qed.

(** C10.  When the construction succeeds, the caller's map is the map it
    was given with "introspection" set to a [DirectExecutorClient] on the
    introspection server made from the first merge; every other entry is
    as it was, and the executor returned holds that same map. *)
Theorem NewExecutor_registers_introspection
    (entries : list (string * ExecutorClient W))
    (executors executors' : gomap (ExecutorClient W)) (e : Executor W) :
  NewExecutor W serverExecute entries executors = (executors', Return e) ->
  exists table schemas types,
    executors = mapOf table
    /\ fetchSchemas W serverExecute entries ∅ = Ok schemas
    /\ convertSchema W schemas = Ok types
    /\ executors'
       = mapOf (<["introspection" := DirectExecutorClient (introspectionServerOf W types)]>
                  table)
    /\ executors' !! "introspection"
       = Some (DirectExecutorClient (introspectionServerOf W types))
    /\ (forall server, server <> "introspection" ->
          executors' !! server = executors !! server)
    /\ Executors e = executors'.
Proof.
  unfold NewExecutor. intros Hrun.
  destruct (fetchSchemas W serverExecute entries ∅) as [schemas | err] eqn:Hfetch;
    [| discriminate].
  destruct (convertSchema W schemas) as [types | err] eqn:Hconv; [| discriminate].
  destruct executors as [| table]; [discriminate |].
  simpl in Hrun.
  destruct (RunIntrospectionQuery W _) as [bytes ignored].
  destruct (jsonUnmarshal W bytes) as [iq | err]; [| discriminate].
  destruct (convertSchema W (<["introspection" := iq]> schemas)) as [types' | err];
    [| discriminate].
  destruct (newFlattener W (typesSchema W types')) as [fl | err]; [| discriminate].
  injection Hrun as <- <-.
  exists table, schemas, types.
  split; [reflexivity |]. split; [reflexivity |]. split; [exact Hconv |].
  split; [reflexivity |].
  split; [apply (lookup_insert_eq table) |]. split; [| reflexivity].
  intros server Hne. by apply (lookup_insert_ne table).
Qed.

End Construction.

(** C9, as stated, fails: the error of a failed flattener, and of a failed
    second merge, is returned as it is.  With one service that answers,
    the construction returns the same error, which names no step, when the
    flattener fails and when the second merge fails. *)
Lemma NewExecutor_error_names_no_step :
  newFlattener flattenerFailsEnv 2 = Error (ErrExternal "conflict")
  /\ failure (snd (NewExecutor flattenerFailsEnv (demoServerExecute flattenerFailsEnv)
                     [("users", upClient flattenerFailsEnv)]
                     (mapOf {["users" := upClient flattenerFailsEnv]})))
     = Some (ErrExternal "conflict")
  /\ failure (snd (NewExecutor remergeFailsEnv (demoServerExecute remergeFailsEnv)
                     [("users", upClient remergeFailsEnv)]
                     (mapOf {["users" := upClient remergeFailsEnv]})))
     = Some (ErrExternal "conflict")
  /\ namedStep (ErrExternal "conflict") = None.
Proof. repeat split; vm_compute; reflexivity. Qed.

Lemma NewExecutor_fails_fast_witness :
  (exists err,
      snd (NewExecutor demoEnv (demoServerExecute demoEnv)
             (map_to_list {["users" := downClient demoEnv]})
             (mapOf {["users" := downClient demoEnv]}))
      = Fail err
      /\ is_Some (namedStep err))
  /\ snd (NewExecutor flattenerFailsEnv (demoServerExecute flattenerFailsEnv)
            (map_to_list {["users" := upClient flattenerFailsEnv]})
            (mapOf {["users" := upClient flattenerFailsEnv]}))
     = Fail (ErrExternal "conflict").
Proof.
  split.
  - destruct (NewExecutor_fails_fast demoEnv (demoServerExecute demoEnv)
                (map_to_list {["users" := downClient demoEnv]})
                (mapOf {["users" := downClient demoEnv]})) as [Hservice _].
    { reflexivity. }
    destruct (Hservice "users" (downClient demoEnv))
      as (server' & client' & err' & _ & _ & Hnamed & Hrun).
    { apply (lookup_singleton_eq (M := gmap string)). }
    { eexists. reflexivity. }
    exists err'. split; [by rewrite Hrun |].
    destruct Hnamed as [-> | ->]; eexists; reflexivity.
  - destruct (NewExecutor_fails_fast flattenerFailsEnv
                (demoServerExecute flattenerFailsEnv)
                (map_to_list {["users" := upClient flattenerFailsEnv]})
                (mapOf {["users" := upClient flattenerFailsEnv]})) as [_ Hlater].
    { reflexivity. }
    rewrite map_to_list_singleton in *.
    assert (Hfetch : fetchSchemas flattenerFailsEnv (demoServerExecute flattenerFailsEnv)
                       [("users", upClient flattenerFailsEnv)] ∅
                     = Ok (<["users" := 0]> ∅)) by reflexivity.
    destruct (Hlater _ Hfetch) as [_ Hmerged].
    assert (Hconv : convertSchema flattenerFailsEnv (<["users" := 0]> ∅) = Ok 1)
      by (vm_compute; reflexivity).
    destruct (Hmerged _ 1 eq_refl Hconv) as [_ Hdecoded].
    destruct (Hdecoded 0 eq_refl) as [_ Hflat].
    apply (Hflat 2 (ErrExternal "conflict")); [vm_compute; reflexivity | reflexivity].
Defined.

Lemma NewExecutor_registers_introspection_witness :
  let executors' : gomap (ExecutorClient demoEnv) :=
    mapOf (<["introspection" := DirectExecutorClient (mkServer (W := demoEnv) 1)]>
             {["users" := upClient demoEnv]}) in
  let e := mkExecutor demoEnv executors' (mkPlanner demoEnv 2 2) in
  NewExecutor demoEnv (demoServerExecute demoEnv)
    [("users", upClient demoEnv)] (mapOf {["users" := upClient demoEnv]})
  = (executors', Return e)
  /\ executors' !! "introspection"
     = Some (DirectExecutorClient (mkServer (W := demoEnv) 1))
  /\ executors' !! "users" = Some (upClient demoEnv)
  /\ Executors e = executors'.
Proof.
  intros executors' e.
  assert (Hrun : NewExecutor demoEnv (demoServerExecute demoEnv)
                   [("users", upClient demoEnv)] (mapOf {["users" := upClient demoEnv]})
                 = (executors', Return e)) by reflexivity.
  split; [exact Hrun |].
  destruct (NewExecutor_registers_introspection demoEnv (demoServerExecute demoEnv)
              _ _ _ _ Hrun)
    as (table & schemas & types & _ & _ & _ & _ & _ & Hother & Hsame).
  split; [apply (lookup_insert_eq (M := gmap string)) |]. split; [| exact Hsame].
  rewrite Hother by discriminate. apply (lookup_singleton_eq (M := gmap string)).
Defined.

(** * Further properties of the path follower *)

(** ** What a walk does to its follower *)

(** The only change a walk makes to a follower is to append an object that
    has "__federation", with the value of that field: a property of
    followers that such an append keeps is kept by every walk, whether it
    fails or not. *)
Lemma rangeSlice_keeps (I : pathFollower -> Prop) (visit : value -> follow)
    (slice : list value) :
  Forall (fun elem => forall pf, I pf -> I (fst (visit elem pf))) slice ->
  forall i pf, I pf -> I (fst (rangeSlice visit slice i pf)).
Proof.
  induction 1 as [| elem rest Helem _ IH]; intros i pf Hpf; [exact Hpf |].
  simpl. specialize (Helem pf Hpf).
  destruct (visit elem pf) as [pf' [err |]]; simpl in *; [exact Helem |].
  by apply IH.
Qed.

Lemma extractTargets_keeps (I : pathFollower -> Prop) :
  (forall pf obj key,
      I pf -> obj !! "__federation" = Some key ->
      I (mkPF (targets pf ++ [obj]) (keys pf ++ [key]))) ->
  forall path node pf, I pf -> I (fst (extractTargets node path pf)).
Proof.
  intros Hstep path. induction path as [| step path IH]; intros node;
    induction node as [| b | n | s | slice IHslice | obj] using value_slice_ind;
    intros pf Hpf; try exact Hpf;
    try (rewrite extractTargets_slice; by apply rangeSlice_keeps).
  - rewrite extractTargets_exhausted by done. simpl.
    destruct (obj !! "__federation") as [key |] eqn:Hkey; simpl; [| exact Hpf].
    by apply Hstep.
  - destruct (Kind step) eqn:Hk.
    + rewrite extractTargets_field by done.
      destruct (obj !! Name step) as [next |]; [| exact Hpf].
      specialize (IH next pf Hpf).
      by destruct (extractTargets next path pf) as [pf' [err |]].
    + rewrite extractTargets_type by done.
      destruct (asString (obj !! "__typename")) as [typ |]; [| exact Hpf].
      case_decide; [| exact Hpf].
      specialize (IH (VObj obj) pf Hpf).
      by destruct (extractTargets (VObj obj) path pf) as [pf' [err |]].
Qed.

(** X1.  A walk only appends: the follower it leaves is the one it was
    given followed by what the same walk leaves in an empty follower, and
    it fails, or not, as that walk does.  What the follower held is neither
    read, changed nor dropped. *)
Theorem extractTargets_only_appends (node : value) (path : list PathStep)
    (pf : pathFollower) :
  targets (fst (extractTargets node path pf))
  = (targets pf ++ targets (fst (walk node path)))%list
  /\ keys (fst (extractTargets node path pf))
     = (keys pf ++ keys (fst (walk node path)))%list
  /\ snd (extractTargets node path pf) = snd (walk node path).
Proof.
  rewrite (extractTargets_appends node path pf). done.
Qed.

(** X2.  The two slices of the follower stay parallel: when they have the
    same length before a walk they have the same length after it, also
    when the walk fails. *)
Theorem extractTargets_parallel (node : value) (path : list PathStep)
    (pf : pathFollower) :
  length (targets pf) = length (keys pf) ->
  length (targets (fst (extractTargets node path pf)))
  = length (keys (fst (extractTargets node path pf))).
Proof.
  apply (extractTargets_keeps (fun pf => length (targets pf) = length (keys pf))).
  intros pf0 obj key Hlen _. simpl. rewrite !length_app. simpl. lia.
Qed.

(** X3.  Every target carries its key: when each target of the follower
    has "__federation" set to the key of the same index before a walk, so
    it is after it, also when the walk fails. *)
Theorem extractTargets_marked (node : value) (path : list PathStep)
    (pf : pathFollower) :
  marked pf -> marked (fst (extractTargets node path pf)).
Proof.
  apply (extractTargets_keeps marked).
  intros pf0 obj key Hpf Hkey. unfold marked in *. simpl.
  apply Forall2_app; [exact Hpf |]. by constructor.
Qed.

(** ** Where the targets come from *)

Lemma rangeSlice_targets_inside (visit : value -> follow) (slice : list value) :
  Forall (fun elem => forall pf t,
            t ∈ targets (fst (visit elem pf)) ->
            t ∈ targets pf \/ inside t elem) slice ->
  forall i pf t,
    t ∈ targets (fst (rangeSlice visit slice i pf)) ->
    t ∈ targets pf \/ inside t (VList slice).
Proof.
  induction 1 as [| elem rest Helem _ IH]; intros i pf t Ht; [by left |].
  simpl in Ht. specialize (Helem pf t).
  destruct (visit elem pf) as [pf' [err |]] eqn:Hrun; simpl in *.
  - destruct (Helem Ht) as [Hold | Hin]; [by left | right].
    apply (inside_elem t (elem :: rest) elem); [apply list_elem_of_here | exact Hin].
  - destruct (IH (S i) pf' t Ht) as [Hmid | Hin].
    + destruct (Helem Hmid) as [Hold | Hin]; [by left | right].
      apply (inside_elem t (elem :: rest) elem); [apply list_elem_of_here | exact Hin].
    + right. inversion Hin as [| slice' elem' Hmem Hdeep |]; subst.
      apply (inside_elem t (elem :: rest) elem'); [by apply list_elem_of_further | exact Hdeep].
Qed.

Lemma extractTargets_targets_inside (path : list PathStep) :
  forall node pf t,
    t ∈ targets (fst (extractTargets node path pf)) ->
    t ∈ targets pf \/ inside t node.
Proof.
  induction path as [| step path IH]; intros node;
    induction node as [| b | n | s | slice IHslice | obj] using value_slice_ind;
    intros pf t Ht; try (by left);
    try (rewrite extractTargets_slice in Ht;
         by apply (rangeSlice_targets_inside _ slice IHslice 0 pf t)).
  - rewrite extractTargets_exhausted in Ht by done. simpl in Ht.
    destruct (obj !! "__federation") as [key |]; simpl in Ht; [| by left].
    apply elem_of_app in Ht as [Hold | Hnew]; [by left | right].
    apply list_elem_of_singleton in Hnew as ->. constructor.
  - destruct (Kind step) eqn:Hk.
    + rewrite extractTargets_field in Ht by done.
      destruct (obj !! Name step) as [next |] eqn:Hnext; [| by left].
      specialize (IH next pf t).
      destruct (extractTargets next path pf) as [pf' [err |]]; simpl in *;
        (destruct (IH Ht) as [Hold | Hin]; [by left | right];
         by apply (inside_field t obj (Name step) next)).
    + rewrite extractTargets_type in Ht by done.
      destruct (asString (obj !! "__typename")) as [typ |]; [| by left].
      case_decide; [| by left].
      specialize (IH (VObj obj) pf t).
      by destruct (extractTargets (VObj obj) path pf) as [pf' [err |]]; simpl in *;
        apply IH.
Qed.

(** X4.  Every target a walk adds is an object of the tree it walks: the
    tree itself, or an object reached from it through fields and slice
    elements. *)
Theorem extractTargets_targets_from_tree (node : value) (path : list PathStep)
    (t : gmap string value) :
  t ∈ targets (fst (walk node path)) -> inside t node.
Proof.
  intros Ht. destruct (extractTargets_targets_inside path node emptyFollower t Ht)
    as [Hold | Hin]; [| exact Hin].
  by apply elem_of_nil in Hold.
Qed.

(** ** Errors of a walk *)

Lemma rangeSlice_error (visit : value -> follow) (slice : list value) :
  Forall (fun elem => appends (visit elem)) slice ->
  forall i0 pf err,
    snd (rangeSlice visit slice i0 pf) = Some err ->
    exists i elem e,
      err = ErrIdx (i0 + i) e
      /\ slice !! i = Some elem
      /\ snd (visit elem emptyFollower) = Some e
      /\ Forall (fun before => snd (visit before emptyFollower) = None) (take i slice).
Proof.
  induction 1 as [| elem rest Helem _ IH]; intros i0 pf err Herr; [discriminate |].
  simpl in Herr. rewrite (Helem pf) in Herr.
  destruct (visit elem emptyFollower) as [pf1 [e |]] eqn:Hrun; simpl in Herr.
  - injection Herr as <-. exists 0, elem, e. rewrite Nat.add_0_r.
    split; [done |]. split; [done |]. split; [by rewrite Hrun | constructor].
  - destruct (IH (S i0) _ err Herr) as (i & elem' & e & -> & Hlook & He & Hbefore).
    exists (S i), elem', e. rewrite Nat.add_succ_r. repeat split; try done.
    simpl. constructor; [| exact Hbefore]. by rewrite Hrun.
Qed.

(** X5.  An error of a walk over a slice tells where it comes from: it is
    "idx i" around the error that the element of index [i] gives when
    walked on its own, and every element before it, walked on its own,
    gives no error. *)
Theorem extractTargets_slice_error (slice : list value) (path : list PathStep)
    (pf : pathFollower) (err : error) :
  snd (extractTargets (VList slice) path pf) = Some err ->
  exists i elem e,
    err = ErrIdx i e
    /\ slice !! i = Some elem
    /\ snd (walk elem path) = Some e
    /\ Forall (fun before => snd (walk before path) = None) (take i slice).
Proof.
  rewrite extractTargets_slice. intros Herr.
  apply (rangeSlice_error (fun elem => extractTargets elem path) slice
           (walk_slice_appends slice path) 0 pf err Herr).
Qed.

Lemma rangeSlice_rootCause (visit : value -> follow) (slice : list value) :
  Forall (fun elem => forall pf err,
            snd (visit elem pf) = Some err -> shapeError (rootCause err) = true) slice ->
  forall i pf err,
    snd (rangeSlice visit slice i pf) = Some err ->
    shapeError (rootCause err) = true.
Proof.
  induction 1 as [| elem rest Helem _ IH]; intros i pf err Herr; [discriminate |].
  simpl in Herr. specialize (Helem pf).
  destruct (visit elem pf) as [pf' [e |]]; simpl in *.
  - injection Herr as <-. simpl. by apply Helem.
  - by apply (IH (S i) pf').
Qed.

(** X6.  Under its "idx", "elem" and "typ" prefixes, every error of a walk
    is one of the four errors on the shape of the result: not an object,
    missing "__federation", missing field, missing "__typename". *)
Theorem extractTargets_error_cause (node : value) (path : list PathStep)
    (pf : pathFollower) (err : error) :
  snd (extractTargets node path pf) = Some err ->
  shapeError (rootCause err) = true.
Proof.
  revert node pf err. induction path as [| step path IH]; intros node;
    induction node as [| b | n | s | slice IHslice | obj] using value_slice_ind;
    intros pf err Herr;
    try (simpl in Herr; by injection Herr as <-);
    try discriminate;
    try (rewrite extractTargets_slice in Herr;
         by apply (rangeSlice_rootCause _ slice IHslice 0 pf err)).
  - rewrite extractTargets_exhausted in Herr by done. simpl in Herr.
    destruct (obj !! "__federation"); simpl in Herr; [discriminate |].
    by injection Herr as <-.
  - destruct (Kind step) eqn:Hk.
    + rewrite extractTargets_field in Herr by done.
      destruct (obj !! Name step) as [next |]; [| by injection Herr as <-].
      specialize (IH next pf).
      destruct (extractTargets next path pf) as [pf' [e |]]; simpl in *;
        [| discriminate].
      injection Herr as <-. simpl. by apply IH.
    + rewrite extractTargets_type in Herr by done.
      destruct (asString (obj !! "__typename")) as [typ |];
        [| by injection Herr as <-].
      case_decide; [| discriminate].
      specialize (IH (VObj obj) pf).
      destruct (extractTargets (VObj obj) path pf) as [pf' [e |]]; simpl in *;
        [| discriminate].
      injection Herr as <-. simpl. by apply IH.
Qed.

(** ** Trees without objects *)

Lemma rangeSlice_skips (visit : value -> follow) (slice : list value) :
  Forall (fun elem => forall pf, visit elem pf = (pf, None)) slice ->
  forall i pf, rangeSlice visit slice i pf = (pf, None).
Proof.
  induction 1 as [| elem rest Helem _ IH]; intros i pf; [done |].
  simpl. by rewrite Helem, IH.
Qed.

(** X7.  With a path that is not exhausted, a tree that holds no object
    (empty slices, [nil] entries, scalars, at any depth of slices) gives no
    target, no key and no error. *)
Theorem extractTargets_skips_object_free (node : value) (step : PathStep)
    (path : list PathStep) (pf : pathFollower) :
  objectFree node = true ->
  extractTargets node (step :: path) pf = (pf, None).
Proof.
  revert pf.
  induction node as [| b | n | s | slice IHslice | obj] using value_slice_ind;
    intros pf Hfree; try reflexivity; [| discriminate].
  rewrite extractTargets_slice. apply rangeSlice_skips.
  simpl in Hfree. rewrite forallb_forall in Hfree.
  rewrite Forall_forall in IHslice. apply Forall_forall.
  intros elem Hin pf'. apply (IHslice elem Hin).
  apply Hfree. by apply list_elem_of_In.
Qed.

(** ** Walking a slice in two parts *)

Lemma rangeSlice_shift (visit : value -> follow) (slice : list value) (n : nat) :
  forall i pf,
    rangeSlice visit slice (n + i) pf
    = (fst (rangeSlice visit slice i pf), shiftIdx n (snd (rangeSlice visit slice i pf))).
Proof.
  induction slice as [| elem rest IH]; intros i pf; [done |].
  simpl. destruct (visit elem pf) as [pf' [err |]]; [done |].
  rewrite <- IH. by rewrite Nat.add_succ_r.
Qed.

Lemma rangeSlice_app (visit : value -> follow) (before after : list value) :
  forall i pf,
    rangeSlice visit (before ++ after) i pf
    = match rangeSlice visit before i pf with
      | (pf', None) => rangeSlice visit after (length before + i) pf'
      | stop => stop
      end.
Proof.
  induction before as [| elem rest IH]; intros i pf; [done |].
  simpl. destruct (visit elem pf) as [pf' [err |]]; [done |].
  rewrite IH. by rewrite Nat.add_succ_r.
Qed.

(** X8.  A slice can be walked in two parts: the walk of [before ++ after]
    is the walk of [before] and, when that gives no error, the walk of
    [after] from the follower it leaves, an error of the second part having
    its index moved up by the length of the first. *)
Theorem extractTargets_slice_app (before after : list value) (path : list PathStep)
    (pf : pathFollower) :
  extractTargets (VList (before ++ after)) path pf
  = match extractTargets (VList before) path pf with
    | (pf', None) =>
        (fst (extractTargets (VList after) path pf'),
         shiftIdx (length before) (snd (extractTargets (VList after) path pf')))
    | stop => stop
    end.
Proof.
  rewrite !extractTargets_slice, rangeSlice_app.
  destruct (rangeSlice _ before 0 pf) as [pf' [err |]]; [done |].
  apply rangeSlice_shift.
Qed.

Lemma extractTargets_parallel_witness :
  length (targets (fst (extractTargets
                          (VList [VObj {["__federation" := VNum 1]}; VNull])
                          [] emptyFollower)))
  = length (keys (fst (extractTargets
                         (VList [VObj {["__federation" := VNum 1]}; VNull])
                         [] emptyFollower))).
Proof.
  apply (extractTargets_parallel
           (VList [VObj {["__federation" := VNum 1]}; VNull]) [] emptyFollower).
  reflexivity.
Defined.

Lemma extractTargets_marked_witness :
  marked (fst (extractTargets
                 (VObj {["orders" := VList [VObj {["__federation" := VNum 1]}]]})
                 [mkStep KindField "orders"] emptyFollower)).
Proof.
  apply (extractTargets_marked
           (VObj {["orders" := VList [VObj {["__federation" := VNum 1]}]]})
           [mkStep KindField "orders"] emptyFollower).
  constructor.
Defined.

Lemma extractTargets_targets_from_tree_witness :
  inside {["__federation" := VNum 1]}
         (VObj {["orders" := VList [VObj {["__federation" := VNum 1]}]]}).
Proof.
  apply (extractTargets_targets_from_tree
           (VObj {["orders" := VList [VObj {["__federation" := VNum 1]}]]})
           [mkStep KindField "orders"]).
  assert (Hrun : targets (fst (walk
                   (VObj {["orders" := VList [VObj {["__federation" := VNum 1]}]]})
                   [mkStep KindField "orders"]))
                 = [{["__federation" := VNum 1]}]) by reflexivity.
  rewrite Hrun. apply list_elem_of_here.
Defined.

Lemma extractTargets_slice_error_witness :
  exists i elem e,
    ErrIdx 1 ErrNotAnObject = ErrIdx i e
    /\ [VObj {["__federation" := VNum 1]}; VNull] !! i = Some elem
    /\ snd (walk elem []) = Some e
    /\ Forall (fun before => snd (walk before []) = None)
              (take i [VObj {["__federation" := VNum 1]}; VNull]).
Proof.
  apply (extractTargets_slice_error [VObj {["__federation" := VNum 1]}; VNull] []
           emptyFollower (ErrIdx 1 ErrNotAnObject)).
  reflexivity.
Defined.

Lemma extractTargets_error_cause_witness :
  shapeError (rootCause (ErrElem (VList [VNum 3]) (ErrIdx 0 ErrNotAnObject))) = true.
Proof.
  apply (extractTargets_error_cause (VObj {["orders" := VList [VNum 3]]})
           [mkStep KindField "orders"] emptyFollower).
  reflexivity.
Defined.

Lemma extractTargets_skips_object_free_witness :
  extractTargets (VList [VNull; VList []; VList [VNum 3; VNull]])
    [mkStep KindField "buyer"] emptyFollower
  = (emptyFollower, None).
Proof.
  apply (extractTargets_skips_object_free
           (VList [VNull; VList []; VList [VNum 3; VNull]])
           (mkStep KindField "buyer") [] emptyFollower).
  reflexivity.
Defined.

(** * Further properties of plan execution *)

Section Outcomes.

Variable W : Env.
Variable e : Executor W.

Local Abbreviation coordinator := (gatewayCoordinatorServiceName W).

Lemma servesChildren_service (p : Plan) :
  Service p <> coordinator ->
  servesChildren coordinator p = negb (bool_decide (After p = [])).
Proof.
  destruct p as [service path after]. simpl. intros Hs.
  rewrite (bool_decide_eq_false_2 _ Hs). simpl.
  destruct after as [| sub rest]; [done | done].
Qed.

Lemma allCoordinator_root (p : Plan) :
  allCoordinator coordinator p = true -> Service p = coordinator.
Proof.
  destruct p as [service path after]. simpl.
  intros [Hs _]%andb_true_iff. by apply bool_decide_eq_true_1 in Hs.
Qed.

(** The loop over the dependent plans of a coordinator node, whose own
    result is one empty object: it never panics, it keeps the first error,
    and it returns the empty object when there is none. *)
Lemma rangeAfter_coordinator (exec : Plan -> list value -> outcome (list value))
    (subs : list Plan) :
  Forall (fun sub => forall ks,
            (Service sub <> coordinator -> After sub = [] -> exec sub ks = Return [])
            /\ (Service sub <> coordinator -> After sub <> [] ->
                exec sub ks = Panic IndexOutOfRange)
            /\ (Service sub = coordinator ->
                exec sub ks = Return [VObj ∅] \/ exists err, exec sub ks = Fail err)
            /\ (allCoordinator coordinator sub = true -> exec sub ks = Return [VObj ∅])
            /\ (Service sub = coordinator ->
                servesChildren coordinator sub = false ->
                allCoordinator coordinator sub = false ->
                exists err, exec sub ks = Fail err)) subs ->
  forall failed,
    (forall err0, failed = Some err0 ->
       rangeAfter exec subs [VObj ∅] failed = Fail err0)
    /\ (failed = None ->
        rangeAfter exec subs [VObj ∅] failed = Return [VObj ∅]
        \/ exists err, rangeAfter exec subs [VObj ∅] failed = Fail err)
    /\ (failed = None ->
        forallb (allCoordinator coordinator) subs = true ->
        rangeAfter exec subs [VObj ∅] failed = Return [VObj ∅])
    /\ (existsb (servesChildren coordinator) subs = false ->
        forallb (allCoordinator coordinator) subs = false ->
        exists err, rangeAfter exec subs [VObj ∅] failed = Fail err).
Proof.
  induction 1 as [| sub rest Hsub _ IH]; intros failed.
  { simpl. split; [by intros err0 -> |]. split; [by intros ->; left |].
    split; [by intros -> _ | discriminate]. }
  destruct (Hsub []) as (Hleaf & Hpanic & Hcoord & Hall & Hmixed).
  assert (Hcases :
            exec sub [] = Return [VObj ∅]
            \/ (exists err1,
                  goroutine (exec sub []) (mkPF [∅] []) [VObj ∅] = Fail err1
                  /\ (allCoordinator coordinator sub = true -> False))
            \/ (exec sub [] = Panic IndexOutOfRange
                /\ servesChildren coordinator sub = true
                /\ allCoordinator coordinator sub = false)).
  { destruct (decide (Service sub = coordinator)) as [Hs | Hs].
    - destruct (Hcoord Hs) as [Hr | [err Hf]]; [by left |].
      right. left. exists (ErrSubPlan err). rewrite Hf. split; [done |].
      intros Hac. rewrite (Hall Hac) in Hf. discriminate.
    - assert (Hnot : allCoordinator coordinator sub = false).
      { destruct (allCoordinator coordinator sub) eqn:Hac; [| done].
        by apply allCoordinator_root in Hac. }
      destruct (decide (After sub = [])) as [Hl | Hl].
      + right. left. exists (ErrResultCount 0 1). rewrite (Hleaf Hs Hl).
        split; [done |]. by rewrite Hnot.
      + right. right. split; [by apply Hpanic |]. split; [| exact Hnot].
        rewrite (servesChildren_service sub Hs).
        by rewrite (bool_decide_eq_false_2 _ Hl). }
  cbn [rangeAfter newFollower keys existsb forallb].
  destruct Hcases as [Hr | [(err1 & Hf & Hnot) | (Hp & Hsc & Hnot)]].
  - rewrite Hr. simpl. rewrite (left_id_L ∅ (∪)).
    destruct (IH failed) as (IHa & IHb & IHc & IHd).
    split; [exact IHa |]. split; [exact IHb |]. split.
    + intros Hnone [_ Hrest]%andb_true_iff. by apply IHc.
    + intros [Hsc Hscs]%orb_false_iff Hacs.
      destruct (allCoordinator coordinator sub) eqn:Hac.
      * by apply IHd.
      * destruct (decide (Service sub = coordinator)) as [Hs | Hs].
        -- destruct (Hmixed Hs Hsc eq_refl) as [err Hfail]. congruence.
        -- destruct (decide (After sub = [])) as [Hl | Hl].
           ++ rewrite (Hleaf Hs Hl) in Hr. discriminate.
           ++ rewrite (Hpanic Hs Hl) in Hr. discriminate.
  - rewrite Hf.
    destruct (IH (Some (default err1 failed))) as (IHa & _).
    split; [| split; [| split]].
    + intros err0 ->. simpl. by apply IHa.
    + intros ->. right. exists err1. by apply IHa.
    + intros _ [Hac _]%andb_true_iff. by destruct (Hnot Hac).
    + intros _ _. exists (default err1 failed). by apply IHa.
  - rewrite Hp. simpl.
    destruct (IH failed) as (IHa & IHb & _ & _).
    split; [exact IHa |]. split; [exact IHb |]. split.
    + intros _ [Hac _]%andb_true_iff. congruence.
    + intros [Hsc' _]%orb_false_iff. congruence.
Qed.

(** The outcomes of [execute], read off the plan. *)
Lemma execute_cases (p : Plan) :
  forall ks,
    (Service p <> coordinator -> After p = [] -> execute W e p ks = Return [])
    /\ (Service p <> coordinator -> After p <> [] ->
        execute W e p ks = Panic IndexOutOfRange)
    /\ (Service p = coordinator ->
        execute W e p ks = Return [VObj ∅] \/ exists err, execute W e p ks = Fail err)
    /\ (allCoordinator coordinator p = true -> execute W e p ks = Return [VObj ∅])
    /\ (Service p = coordinator ->
        servesChildren coordinator p = false ->
        allCoordinator coordinator p = false ->
        exists err, execute W e p ks = Fail err).
Proof.
  induction p as [service path after IH] using Plan_after_ind. intros ks.
  split; [| split].
  { intros Hs Hleaf. by rewrite execute_leaf, ownResult_service. }
  { intros Hs Hafter. by apply execute_service_with_children. }
  assert (Hloop : Service (mkPlan service path after) = coordinator ->
            execute W e (mkPlan service path after) ks
            = rangeAfter (execute W e) after [VObj ∅] None).
  { intros Hs. by rewrite execute_unfold, ownResult_coordinator. }
  destruct (rangeAfter_coordinator (execute W e) after IH None)
    as (_ & Hb & Hc & Hd).
  split; [| split].
  - intros Hs. rewrite (Hloop Hs). by apply Hb.
  - intros Hac. rewrite (Hloop (allCoordinator_root _ Hac)).
    simpl in Hac. apply andb_true_iff in Hac as [_ Hrest]. by apply Hc.
  - intros Hs Hsc Hac. rewrite (Hloop Hs). simpl in Hs, Hsc, Hac.
    rewrite (bool_decide_eq_true_2 _ Hs) in Hsc, Hac. simpl in Hsc, Hac.
    by apply Hd.
Qed.

(** X9.  [execute] never returns anything it was not holding before its
    dependent plans ran: whenever it returns, it returns the node's own
    result of lines 156-162, one empty object for the coordinator and the
    [nil] slice otherwise.  No field of a dependent plan's result is ever
    in what it returns. *)
Theorem execute_returns_own_result (p : Plan) (ks r : list value) :
  execute W e p ks = Return r -> r = ownResult W p.
Proof.
  intros Hrun. destruct (execute_cases p ks) as (Hleaf & Hpanic & Hcoord & _ & _).
  destruct (decide (Service p = coordinator)) as [Hs | Hs].
  - rewrite (ownResult_coordinator W p Hs).
    destruct (Hcoord Hs) as [Hr | [err Hf]]; congruence.
  - rewrite (ownResult_service W p Hs).
    destruct (decide (After p = [])) as [Hl | Hl].
    + rewrite (Hleaf Hs Hl) in Hrun. congruence.
    + rewrite (Hpanic Hs Hl) in Hrun. discriminate.
Qed.

Lemma goroutinePanics_unfold (p : Plan) :
  goroutinePanics W e p
  = bool_decide (Service p = coordinator)
    && existsb (fun subPlan =>
                  isPanic (execute W e subPlan []) || goroutinePanics W e subPlan)
               (After p).
Proof.
  destruct p as [service path after]. cbn [goroutinePanics Service After].
  unfold ownResult. cbn [Service]. by case_decide; case_bool_decide.
Qed.

Lemma goroutinePanics_servesChildren (p : Plan) :
  goroutinePanics W e p
  = bool_decide (Service p = coordinator) && servesChildren coordinator p.
Proof.
  induction p as [service path after IH] using Plan_after_ind.
  rewrite goroutinePanics_unfold. cbn [Service After servesChildren].
  case_bool_decide as Hs; [| done]. simpl. clear Hs.
  induction IH as [| sub rest Hsub _ IHrest]; [done |].
  cbn [existsb]. rewrite IHrest. f_equal.
  rewrite Hsub. destruct (execute_cases sub []) as (Hleaf & Hpanic & Hcoord & _ & _).
  case_bool_decide as Hs; simpl.
  - destruct (Hcoord Hs) as [-> | [err ->]]; done.
  - rewrite (servesChildren_service sub Hs), orb_false_r.
    case_bool_decide as Hl; simpl.
    + by rewrite (Hleaf Hs Hl).
    + by rewrite (Hpanic Hs Hl).
Qed.

(** X10.  A call of [execute] itself panics exactly when the root of its
    plan is on a service other than the coordinator and has dependent
    plans, and then with the index out of range of line 173, never with
    the type assertion of that line.  A goroutine started under the call
    panics exactly when the root is on the coordinator and some node of
    the plan, at any depth, is on a service and has dependent plans. *)
Theorem panic_raised_iff (p : Plan) (ks : list value) :
  (forall pn,
      execute W e p ks = Panic pn
      <-> Service p <> coordinator /\ After p <> [] /\ pn = IndexOutOfRange)
  /\ (goroutinePanics W e p = true
      <-> Service p = coordinator /\ servesChildren coordinator p = true).
Proof.
  destruct (execute_cases p ks) as (Hleaf & Hpanic & Hcoord & _ & _). split.
  - intros pn. split.
    + intros Hrun. destruct (decide (Service p = coordinator)) as [Hs | Hs].
      { destruct (Hcoord Hs) as [Hr | [err Hf]]; congruence. }
      destruct (decide (After p = [])) as [Hl | Hl].
      { rewrite (Hleaf Hs Hl) in Hrun. discriminate. }
      rewrite (Hpanic Hs Hl) in Hrun. by injection Hrun as <-.
    + intros (Hs & Hl & ->). by apply Hpanic.
  - rewrite goroutinePanics_servesChildren, andb_true_iff.
    by rewrite bool_decide_eq_true.
Qed.

(** X11.  A plan all of whose nodes are on the coordinator returns one
    empty object, however many dependent plans it has and however deep. *)
Theorem execute_coordinator_only (p : Plan) (ks : list value) :
  allCoordinator coordinator p = true ->
  execute W e p ks = Return [VObj ∅].
Proof.
  intros Hac. destruct (execute_cases p ks) as (_ & _ & _ & Hall & _).
  by apply Hall.
Qed.

(** X12.  A coordinator plan of which some node is on a service, and of
    which no node on a service has dependent plans, returns an error: it
    neither panics nor returns a result. *)
Theorem execute_coordinator_over_services_fails (p : Plan) (ks : list value) :
  Service p = coordinator ->
  servesChildren coordinator p = false ->
  allCoordinator coordinator p = false ->
  exists err, execute W e p ks = Fail err.
Proof.
  intros Hs Hsc Hac. destruct (execute_cases p ks) as (_ & _ & _ & _ & Hmixed).
  by apply Hmixed.
Qed.

Lemma rangeAfter_service_leaves (subs : list Plan) :
  Forall (fun sub => Service sub <> coordinator /\ After sub = []) subs ->
  subs <> [] ->
  forall failed,
    rangeAfter (execute W e) subs [VObj ∅] failed
    = Fail (default (ErrResultCount 0 1) failed).
Proof.
  induction 1 as [| sub rest [Hs Hleaf] Hrest IH]; intros Hne failed; [done |].
  cbn [rangeAfter newFollower keys].
  rewrite (execute_leaf W e sub [] Hleaf), (ownResult_service W sub Hs). simpl.
  destruct rest as [| sub' rest'].
  - simpl. by destruct failed.
  - rewrite IH by done. by destruct failed.
Qed.

(** X13.  A coordinator plan whose dependent plans are all single nodes on
    services (a query whose top-level fields each belong to one service)
    returns the error "got 0 results for 1 targets". *)
Theorem execute_root_over_service_leaves (p : Plan) (ks : list value) :
  Service p = coordinator ->
  After p <> [] ->
  Forall (fun sub => Service sub <> coordinator /\ After sub = []) (After p) ->
  execute W e p ks = Fail (ErrResultCount 0 1).
Proof.
  intros Hs Hne Hsubs.
  rewrite execute_unfold, (ownResult_coordinator W p Hs).
  by rewrite rangeAfter_service_leaves.
Qed.

Variable planRoot : Planner W -> Query W -> result Plan.

(** X14.  For a query that plans, whenever [Execute] returns a value the
    root of the plan is on the coordinator and the value is the empty
    object: no field of any service's answer is ever in what [Execute]
    returns.  It does return it when every node of the plan is on the
    coordinator. *)
Theorem Execute_returns_empty_object (q : Query W) (p : Plan) :
  planRoot (planner e) q = Ok p ->
  (forall v,
      Execute W planRoot e q = Return v ->
      v = VObj ∅ /\ Service p = coordinator)
  /\ (allCoordinator coordinator p = true ->
      Execute W planRoot e q = Return (VObj ∅)).
Proof.
  intros Hplan. unfold Execute. rewrite Hplan.
  destruct (execute_cases p []) as (Hleaf & Hpanic & Hcoord & Hall & _). split.
  - intros v Hrun. destruct (decide (Service p = coordinator)) as [Hs | Hs].
    + destruct (Hcoord Hs) as [Hr | [err Hf]].
      * rewrite Hr in Hrun. by injection Hrun as <-.
      * rewrite Hf in Hrun. discriminate.
    + destruct (decide (After p = [])) as [Hl | Hl].
      * rewrite (Hleaf Hs Hl) in Hrun. discriminate.
      * rewrite (Hpanic Hs Hl) in Hrun. discriminate.
  - intros Hac. by rewrite (Hall Hac).
Qed.

End Outcomes.

Lemma execute_returns_own_result_witness :
  [VObj ∅]
  = ownResult demoEnv
      (mkPlan "gateway-coordinator" []
              [mkPlan "gateway-coordinator" [mkStep KindField "orders"] []]).
Proof.
  apply (execute_returns_own_result demoEnv demoExecutor
           (mkPlan "gateway-coordinator" []
                   [mkPlan "gateway-coordinator" [mkStep KindField "orders"] []])
           []).
  reflexivity.
Defined.

Lemma panic_raised_iff_witness :
  execute demoEnv demoExecutor
    (mkPlan "orders" [] [mkPlan "users" [mkStep KindField "orders"] []]) []
  = Panic IndexOutOfRange
  /\ goroutinePanics demoEnv demoExecutor
       (mkPlan "gateway-coordinator" []
               [mkPlan "orders" [] [mkPlan "users" [mkStep KindField "orders"] []]])
     = true
  /\ execute demoEnv demoExecutor
       (mkPlan "gateway-coordinator" []
               [mkPlan "orders" [] [mkPlan "users" [mkStep KindField "orders"] []]]) []
     = Return [VObj ∅].
Proof.
  split; [| split].
  - apply (panic_raised_iff demoEnv demoExecutor
             (mkPlan "orders" [] [mkPlan "users" [mkStep KindField "orders"] []]) []).
    repeat split; discriminate.
  - apply (panic_raised_iff demoEnv demoExecutor
             (mkPlan "gateway-coordinator" []
                     [mkPlan "orders" [] [mkPlan "users" [mkStep KindField "orders"] []]])
             []).
    split; reflexivity.
  - reflexivity.
Defined.

Lemma execute_coordinator_only_witness :
  execute demoEnv demoExecutor
    (mkPlan "gateway-coordinator" []
            [mkPlan "gateway-coordinator" [] [mkPlan "gateway-coordinator" [] []];
             mkPlan "gateway-coordinator" [] []]) []
  = Return [VObj ∅].
Proof.
  apply (execute_coordinator_only demoEnv demoExecutor
           (mkPlan "gateway-coordinator" []
                   [mkPlan "gateway-coordinator" [] [mkPlan "gateway-coordinator" [] []];
                    mkPlan "gateway-coordinator" [] []]) []).
  reflexivity.
Defined.

Lemma execute_coordinator_over_services_fails_witness :
  exists err,
    execute demoEnv demoExecutor
      (mkPlan "gateway-coordinator" []
              [mkPlan "gateway-coordinator" [] [mkPlan "users" [] []]]) []
    = Fail err.
Proof.
  apply (execute_coordinator_over_services_fails demoEnv demoExecutor
           (mkPlan "gateway-coordinator" []
                   [mkPlan "gateway-coordinator" [] [mkPlan "users" [] []]]) []);
    reflexivity.
Defined.

Lemma execute_root_over_service_leaves_witness :
  execute demoEnv demoExecutor
    (mkPlan "gateway-coordinator" []
            [mkPlan "users" [mkStep KindField "users"] [];
             mkPlan "orders" [mkStep KindField "orders"] []]) []
  = Fail (ErrResultCount 0 1).
Proof.
  apply (execute_root_over_service_leaves demoEnv demoExecutor
           (mkPlan "gateway-coordinator" []
                   [mkPlan "users" [mkStep KindField "users"] [];
                    mkPlan "orders" [mkStep KindField "orders"] []]) []).
  - reflexivity.
  - discriminate.
  - repeat constructor; discriminate.
Defined.

Lemma Execute_returns_empty_object_witness :
  Execute demoEnv
    (demoPlanRoot (mkPlan "gateway-coordinator" [] [mkPlan "gateway-coordinator" [] []])
                  demoEnv)
    demoExecutor tt
  = Return (VObj ∅).
Proof.
  destruct (Execute_returns_empty_object demoEnv demoExecutor
              (demoPlanRoot (mkPlan "gateway-coordinator" []
                                    [mkPlan "gateway-coordinator" [] []]) demoEnv)
              tt
              (mkPlan "gateway-coordinator" [] [mkPlan "gateway-coordinator" [] []])
              eq_refl) as [_ Hall].
  apply Hall. reflexivity.
Defined.

(** * Further properties of the construction *)

Section Schemas.

Variable W : Env.
Variable serverExecute : Server W -> Query W -> result (list Byte.byte).

Lemma fetchSchemas_lookup (entries : list (string * ExecutorClient W)) :
  forall acc schemas,
    NoDup entries.*1 ->
    fetchSchemas W serverExecute entries acc = Ok schemas ->
    (forall server client,
        (server, client) ∈ entries ->
        exists iq, decodedSchema W serverExecute client = Some iq
                   /\ schemas !! server = Some iq)
    /\ (forall server, server ∉ entries.*1 -> schemas !! server = acc !! server).
Proof.
  induction entries as [| [server0 client0] rest IH]; intros acc schemas Hnd Hrun.
  - injection Hrun as <-. split; [| done].
    intros server client Hin. by apply elem_of_nil in Hin.
  - simpl in Hrun, Hnd. apply NoDup_cons in Hnd as [Hfresh Hnd].
    destruct (fetchSchema W serverExecute client0) as [bytes | e0] eqn:Hfetch;
      [| discriminate].
    destruct (jsonUnmarshal W bytes) as [iq0 | e1] eqn:Hjson; [| discriminate].
    destruct (IH _ _ Hnd Hrun) as [Hin Hout]. split.
    + intros server client Hmem.
      apply elem_of_cons in Hmem as [[= -> ->] | Hmem]; [| by apply Hin].
      exists iq0. split.
      * unfold decodedSchema. by rewrite Hfetch, Hjson.
      * rewrite (Hout server0 Hfresh). apply lookup_insert_eq.
    + intros server Hnot. simpl in Hnot.
      apply not_elem_of_cons in Hnot as [Hne Hnot].
      rewrite (Hout server Hnot). by apply lookup_insert_ne.
Qed.

Lemma fetchSchemas_succeeds (entries : list (string * ExecutorClient W)) :
  Forall (fun entry => is_Some (decodedSchema W serverExecute entry.2)) entries ->
  forall acc, exists schemas, fetchSchemas W serverExecute entries acc = Ok schemas.
Proof.
  induction 1 as [| [server client] rest [iq Hiq] _ IH]; intros acc; [by eexists |].
  simpl in *. unfold decodedSchema in Hiq.
  destruct (fetchSchema W serverExecute client) as [bytes | e0]; [| discriminate].
  destruct (jsonUnmarshal W bytes) as [iq0 | e1]; [| discriminate].
  apply IH.
Qed.

Lemma entries_of_map (entries : list (string * ExecutorClient W))
    (executors : gmap string (ExecutorClient W)) :
  entries ≡ₚ map_to_list executors ->
  NoDup entries.*1
  /\ (forall server client,
        (server, client) ∈ entries <-> executors !! server = Some client)
  /\ (forall server, server ∉ entries.*1 <-> executors !! server = None).
Proof.
  intros Hperm. split; [| split].
  - rewrite Hperm. apply NoDup_fst_map_to_list.
  - intros server client. rewrite Hperm. apply elem_of_map_to_list.
  - intros server. rewrite Hperm. split.
    + intros Hnot. destruct (executors !! server) as [client |] eqn:Hlook; [| done].
      destruct Hnot. apply list_elem_of_fmap. exists (server, client).
      split; [done | by apply elem_of_map_to_list].
    + intros Hnone [[server' client] [-> Hmem]]%list_elem_of_fmap.
      apply elem_of_map_to_list in Hmem. simpl in Hnone. congruence.
Qed.

Lemma fetchSchemas_of_map (entries : list (string * ExecutorClient W))
    (executors : gmap string (ExecutorClient W))
    (schemas : gmap string (introspectionQueryResult W)) :
  entries ≡ₚ map_to_list executors ->
  fetchSchemas W serverExecute entries ∅ = Ok schemas ->
  forall server,
    schemas !! server = executors !! server ≫= decodedSchema W serverExecute.
Proof.
  intros Hperm Hrun server.
  destruct (entries_of_map entries executors Hperm) as (Hnd & Hin & Hout).
  destruct (fetchSchemas_lookup entries ∅ schemas Hnd Hrun) as [Hsome Hnone].
  destruct (executors !! server) as [client |] eqn:Hlook; simpl.
  - apply Hin in Hlook. destruct (Hsome server client Hlook) as (iq & -> & ->). done.
  - apply Hout in Hlook. by rewrite (Hnone server Hlook).
Qed.

(** X15.  When the loop over the services ends without error, the schemas
    handed to the merge are those of the map's services and no other:
    under each service's name is what its client's answer to the
    introspection query decodes to. *)
Theorem fetchSchemas_collects (entries : list (string * ExecutorClient W))
    (executors : gmap string (ExecutorClient W))
    (schemas : gmap string (introspectionQueryResult W)) :
  entries ≡ₚ map_to_list executors ->
  fetchSchemas W serverExecute entries ∅ = Ok schemas ->
  dom schemas = dom executors
  /\ forall server,
       schemas !! server = executors !! server ≫= decodedSchema W serverExecute.
Proof.
  intros Hperm Hrun.
  pose proof (fetchSchemas_of_map entries executors schemas Hperm Hrun) as Hlook.
  split; [| exact Hlook].
  apply set_eq. intros server. rewrite !elem_of_dom, Hlook.
  destruct (entries_of_map entries executors Hperm) as (Hnd & Hin & _).
  destruct (fetchSchemas_lookup entries ∅ schemas Hnd Hrun) as [Hsome _].
  destruct (executors !! server) as [client |] eqn:Hclient; simpl.
  - apply Hin in Hclient. destruct (Hsome server client Hclient) as (iq & -> & _).
    split; eauto.
  - split; intros [? ?]; discriminate.
Qed.

(** X16.  The order in which Go ranges over the map does not matter once
    every service answers: when the loop ends without error for one order
    of the map's entries, [NewExecutor] gives the same map and the same
    result for every other order. *)
Theorem NewExecutor_any_order (entries entries' : list (string * ExecutorClient W))
    (executors : gomap (ExecutorClient W))
    (schemas : gmap string (introspectionQueryResult W)) :
  entries ≡ₚ entriesOf executors ->
  entries' ≡ₚ entriesOf executors ->
  fetchSchemas W serverExecute entries ∅ = Ok schemas ->
  NewExecutor W serverExecute entries' executors
  = NewExecutor W serverExecute entries executors.
Proof.
  intros Hperm Hperm' Hrun. destruct executors as [| table]; simpl in Hperm, Hperm'.
  { apply Permutation_nil_r in Hperm. apply Permutation_nil_r in Hperm'.
    by subst. }
  destruct (entries_of_map entries table Hperm) as (Hnd & Hin & _).
  destruct (fetchSchemas_lookup entries ∅ schemas Hnd Hrun) as [Hsome _].
  destruct (fetchSchemas_succeeds entries') with (acc := (∅ : gmap string (introspectionQueryResult W)))
    as [schemas' Hrun'].
  { apply Forall_forall. intros [server client] Hmem. simpl.
    rewrite Hperm', <- Hperm in Hmem.
    destruct (Hsome server client Hmem) as (iq & -> & _). eauto. }
  assert (Hsame : schemas' = schemas).
  { apply map_eq. intros server.
    rewrite (fetchSchemas_of_map entries' table schemas' Hperm' Hrun').
    by rewrite (fetchSchemas_of_map entries table schemas Hperm Hrun). }
  unfold NewExecutor. by rewrite Hrun, Hrun', Hsame.
Qed.

(** X17.  The write of line 60 comes as soon as the first merge succeeds.
    On a map that is not [nil] the caller's map holds the introspection
    client under "introspection" from then on, also when the construction
    fails afterwards and no executor is returned.  On a [nil] map the write
    panics: [NewExecutor] neither returns an executor nor an error.  When
    the loop over the services or the first merge fails, the map is left
    as it was, [nil] or not. *)
Theorem NewExecutor_write_after_first_merge
    (entries : list (string * ExecutorClient W))
    (executors : gomap (ExecutorClient W)) :
  (forall table schemas types,
      executors = mapOf table ->
      fetchSchemas W serverExecute entries ∅ = Ok schemas ->
      convertSchema W schemas = Ok types ->
      fst (NewExecutor W serverExecute entries executors)
      = mapOf (<["introspection" := DirectExecutorClient (introspectionServerOf W types)]>
                 table))
  /\ (forall schemas types,
        executors = nilMap ->
        fetchSchemas W serverExecute entries ∅ = Ok schemas ->
        convertSchema W schemas = Ok types ->
        NewExecutor W serverExecute entries executors = (nilMap, Panic NilMapWrite))
  /\ (forall err,
        fetchSchemas W serverExecute entries ∅ = Error err ->
        NewExecutor W serverExecute entries executors = (executors, Fail err))
  /\ (forall schemas err,
        fetchSchemas W serverExecute entries ∅ = Ok schemas ->
        convertSchema W schemas = Error err ->
        NewExecutor W serverExecute entries executors
        = (executors, Fail (ErrConvertingSchema err))).
Proof.
  unfold NewExecutor. split; [| split; [| split]].
  - intros table schemas types -> -> ->. simpl.
    destruct (RunIntrospectionQuery W _) as [bytes ignored].
    destruct (jsonUnmarshal W bytes) as [iq | err]; [| done].
    destruct (convertSchema W (<["introspection" := iq]> schemas)) as [types' | err];
      [| done].
    by destruct (newFlattener W (typesSchema W types')).
  - by intros schemas types -> -> ->.
  - by intros err ->.
  - by intros schemas err -> ->.
Qed.

(** X18.  When the introspection query itself does not parse and the map
    holds at least one service, no client is asked: the construction
    fails with the parser's error as the failed fetch of a service of the
    map, and the map is left as it was. *)
Theorem NewExecutor_query_does_not_parse
    (entries : list (string * ExecutorClient W))
    (executors : gmap string (ExecutorClient W)) (err : error) :
  entries ≡ₚ map_to_list executors ->
  executors <> ∅ ->
  parseIntrospectionQuery W = Error err ->
  exists server,
    is_Some (executors !! server)
    /\ NewExecutor W serverExecute entries (mapOf executors)
       = (mapOf executors, Fail (ErrFetchingSchema server err)).
Proof.
  intros Hperm Hne Hparse.
  destruct entries as [| [server client] rest].
  - symmetry in Hperm. apply Permutation_nil_r in Hperm.
    by apply map_to_list_empty_iff in Hperm.
  - exists server. split.
    + exists client. apply elem_of_map_to_list. rewrite <- Hperm. apply list_elem_of_here.
    + unfold NewExecutor. simpl. unfold fetchSchema. by rewrite Hparse.
Qed.

End Schemas.

Lemma fetchSchemas_collects_witness :
  dom (<["users" := 0]> (∅ : gmap string nat))
  = dom ({["users" := upClient demoEnv]} : gmap string (ExecutorClient demoEnv))
  /\ forall server,
       (<["users" := 0]> (∅ : gmap string nat)) !! server
       = ({["users" := upClient demoEnv]} : gmap string (ExecutorClient demoEnv)) !! server
           ≫= decodedSchema demoEnv (demoServerExecute demoEnv).
Proof.
  apply (fetchSchemas_collects demoEnv (demoServerExecute demoEnv)
           [("users", upClient demoEnv)] {["users" := upClient demoEnv]}
           (<["users" := 0]> ∅)).
  - by rewrite map_to_list_singleton.
  - reflexivity.
Defined.

Lemma NewExecutor_any_order_witness :
  NewExecutor demoEnv (demoServerExecute demoEnv)
    [("orders", upClient demoEnv); ("users", upClient demoEnv)]
    (mapOf (<["users" := upClient demoEnv]> {["orders" := upClient demoEnv]}))
  = NewExecutor demoEnv (demoServerExecute demoEnv)
      [("users", upClient demoEnv); ("orders", upClient demoEnv)]
      (mapOf (<["users" := upClient demoEnv]> {["orders" := upClient demoEnv]})).
Proof.
  assert (Hperm : [("users", upClient demoEnv); ("orders", upClient demoEnv)]
                  ≡ₚ map_to_list (<["users" := upClient demoEnv]>
                                    ({["orders" := upClient demoEnv]}
                                     : gmap string (ExecutorClient demoEnv)))).
  { rewrite map_to_list_insert by reflexivity. by rewrite map_to_list_singleton. }
  apply (NewExecutor_any_order demoEnv (demoServerExecute demoEnv)
           [("users", upClient demoEnv); ("orders", upClient demoEnv)]
           [("orders", upClient demoEnv); ("users", upClient demoEnv)]
           (mapOf _) (<["orders" := 0]> (<["users" := 0]> ∅))).
  - exact Hperm.
  - simpl. rewrite <- Hperm. apply perm_swap.
  - reflexivity.
Defined.

Lemma NewExecutor_write_after_first_merge_witness :
  fst (NewExecutor flattenerFailsEnv (demoServerExecute flattenerFailsEnv)
         [("users", upClient flattenerFailsEnv)]
         (mapOf {["users" := upClient flattenerFailsEnv]}))
  = mapOf (<["introspection" := DirectExecutorClient (mkServer (W := flattenerFailsEnv) 1)]>
             {["users" := upClient flattenerFailsEnv]})
  /\ failure (snd (NewExecutor flattenerFailsEnv (demoServerExecute flattenerFailsEnv)
                     [("users", upClient flattenerFailsEnv)]
                     (mapOf {["users" := upClient flattenerFailsEnv]})))
     = Some (ErrExternal "conflict")
  /\ NewExecutor demoEnv (demoServerExecute demoEnv) [] nilMap
     = (nilMap, Panic NilMapWrite).
Proof.
  split; [| split; [reflexivity |]].
  - destruct (NewExecutor_write_after_first_merge flattenerFailsEnv
                (demoServerExecute flattenerFailsEnv)
                [("users", upClient flattenerFailsEnv)]
                (mapOf {["users" := upClient flattenerFailsEnv]})) as [Hwritten _].
    apply (Hwritten _ (<["users" := 0]> ∅) 1);
      [reflexivity | reflexivity | vm_compute; reflexivity].
  - destruct (NewExecutor_write_after_first_merge demoEnv
                (demoServerExecute demoEnv) [] nilMap) as (_ & Hnil & _).
    apply (Hnil ∅ 0); [reflexivity | reflexivity | vm_compute; reflexivity].
Defined.

Lemma NewExecutor_query_does_not_parse_witness :
  exists server,
    is_Some (({["users" := upClient noParseEnv]}
              : gmap string (ExecutorClient noParseEnv)) !! server)
    /\ NewExecutor noParseEnv (demoServerExecute noParseEnv)
         [("users", upClient noParseEnv)] (mapOf {["users" := upClient noParseEnv]})
       = (mapOf {["users" := upClient noParseEnv]},
          Fail (ErrFetchingSchema server (ErrExternal "syntax error"))).
Proof.
  apply (NewExecutor_query_does_not_parse noParseEnv (demoServerExecute noParseEnv)
           [("users", upClient noParseEnv)] {["users" := upClient noParseEnv]}
           (ErrExternal "syntax error")).
  - by rewrite map_to_list_singleton.
  - apply insert_non_empty.
  - reflexivity.
Defined.

(** * Further properties of the merge *)

Lemma mergeTargets_no_panic (tgts : list (gmap string value)) (results : list value) :
  length results = length tgts ->
  forall pn, mergeTargets tgts results <> Panic pn.
Proof.
  revert results. induction tgts as [| target tgts IH]; intros [| r results] Hlen pn;
    try discriminate.
  simpl. destruct (asObject r) as [fields |]; [| discriminate].
  specialize (IH results ltac:(simpl in Hlen; lia) pn).
  by destruct (mergeTargets tgts results).
Qed.

(** X20.  The count check of line 182 makes the index [results[i]] of
    line 190 safe: a goroutine whose recursive call did not panic does not
    panic, whatever the call returned and whatever the targets. *)
Theorem goroutine_does_not_panic (sub : outcome (list value)) (pf : pathFollower)
    (res : list value) (pn : panic) :
  (forall pn', sub <> Panic pn') ->
  goroutine sub pf res <> Panic pn.
Proof.
  intros Hsub. destruct sub as [results | err | pn'].
  - simpl. case_decide as Hlen; [discriminate |].
    pose proof (mergeTargets_no_panic (targets pf) results Hlen) as Hmerge.
    destruct (mergeTargets (targets pf) results) as [merged | err | pn'];
      [discriminate | discriminate |].
    by destruct (Hmerge pn').
  - discriminate.
  - by destruct (Hsub pn').
Qed.

Lemma goroutine_does_not_panic_witness :
  goroutine (Return [VNum 3; VNull]) (mkPF [∅] []) [VObj ∅] <> Panic IndexOutOfRange.
Proof.
  apply (goroutine_does_not_panic (Return [VNum 3; VNull]) (mkPF [∅] []) [VObj ∅]
           IndexOutOfRange).
  intros pn'. discriminate.
Defined.
